(** * Minesweeper knowledge base: [Sentence] and [MinesweeperAI]

    A shallow embedding of [TP02/minesweeper/minesweeper.py].

    - A board cell is a pair of Python integers, here [Z * Z].
    - A Python [set] of cells is a [gset Cell].
    - A [Sentence] object is a record of its two attributes.  The objects
      held by [MinesweeperAI.knowledge] are compared both by value
      ([__eq__]) and by identity ([is]); every list entry therefore carries
      the identity of its object, a number handed out when the object is
      constructed.
    - [random.choice] is modelled by passing the drawn index in. *)

From stdpp Require Import base decidable option numbers list sets gmap.

#[local] Set Warnings "-clear-no-such-hyp".  (* emitted by set_solver *)

Open Scope Z_scope.

Abbreviation Cell := (Z * Z)%type (only parsing).

(** ** class Sentence *)

Module Sentence.

Record t : Type := mk { cells : gset Cell; count : Z }.

#[global] Instance eq_dec : EqDecision t.
Proof. solve_decision. Defined.

(** [__eq__]: same cell set and same count. *)
Definition eqb (s o : t) : bool :=
  bool_decide (cells s = cells o) && bool_decide (count s = count o).

(** [len(self.cells)] *)
Definition len (s : t) : Z := Z.of_nat (size (cells s)).

(** [known_mines]: [self.cells] when [count == len(cells)], else [None]. *)
Definition known_mines (s : t) : option (gset Cell) :=
  if bool_decide (count s = len s) then Some (cells s) else None.

(** [known_safes]: [self.cells] when [not self.count], else [None]. *)
Definition known_safes (s : t) : option (gset Cell) :=
  if bool_decide (count s = 0) then Some (cells s) else None.

(** [mark_mine]: drop the cell and decrement the count, when it is there. *)
Definition mark_mine (cell : Cell) (s : t) : t :=
  if bool_decide (cell ∈ cells s)
  then {| cells := cells s ∖ {[cell]}; count := count s - 1 |}
  else s.

(** [mark_safe]: drop the cell, when it is there. *)
Definition mark_safe (cell : Cell) (s : t) : t :=
  if bool_decide (cell ∈ cells s)
  then {| cells := cells s ∖ {[cell]}; count := count s |}
  else s.

End Sentence.

(** Truth value of what [known_mines] / [known_safes] return, as tested by
    [if safes:] and [if mines:]: [None] and the empty set are false. *)
Definition truthy (r : option (gset Cell)) : bool :=
  match r with
  | None => false
  | Some X => negb (bool_decide (X = ∅))
  end.

(** ** class MinesweeperAI *)

(** Identity of a [Sentence] object. *)
Abbreviation ident := nat (only parsing).

Module MinesweeperAI.

Record t : Type := mk {
  height : Z;
  width : Z;
  moves_made : gset Cell;
  mines : gset Cell;
  safes : gset Cell;
  knowledge : list (ident * Sentence.t);
  (* identity given to the next [Sentence] that is constructed *)
  fresh : ident
}.

(** [MinesweeperAI(height, width)] *)
Definition init (h w : Z) : t :=
  {| height := h; width := w; moves_made := ∅; mines := ∅; safes := ∅;
     knowledge := []; fresh := 0%nat |}.

(** The agent with its list of sentences replaced. *)
Definition set_knowledge (k : list (ident * Sentence.t)) (f : ident) (a : t) : t :=
  {| height := height a; width := width a; moves_made := moves_made a;
     mines := mines a; safes := safes a; knowledge := k; fresh := f |}.

(** [mark_mine]: record the mine, then tell every sentence. *)
Definition mark_mine (cell : Cell) (a : t) : t :=
  {| height := height a; width := width a; moves_made := moves_made a;
     mines := {[cell]} ∪ mines a; safes := safes a;
     knowledge := prod_map id (Sentence.mark_mine cell) <$> knowledge a;
     fresh := fresh a |}.

(** [mark_safe]: record the safe cell, then tell every sentence. *)
Definition mark_safe (cell : Cell) (a : t) : t :=
  {| height := height a; width := width a; moves_made := moves_made a;
     mines := mines a; safes := {[cell]} ∪ safes a;
     knowledge := prod_map id (Sentence.mark_safe cell) <$> knowledge a;
     fresh := fresh a |}.

(** *** add_knowledge, steps 1 to 3 *)

(** The nine cells visited by the two nested [range] loops, in order. *)
Definition window (cell : Cell) : list Cell :=
  i ← [cell.1 - 1; cell.1; cell.1 + 1];
  j ← [cell.2 - 1; cell.2; cell.2 + 1];
  [(i, j)].

(** [0 <= i < self.height and 0 <= j < self.width] *)
Definition in_bounds (a : t) (c : Cell) : bool :=
  bool_decide (0 ≤ c.1 < height a) && bool_decide (0 ≤ c.2 < width a).

(** Body of the inner loop, on the local variables [cells] and [count]. *)
Definition scan_step (a : t) (cell : Cell) (acc : gset Cell * Z) (c : Cell)
  : gset Cell * Z :=
  if bool_decide (c = cell) then acc
  else if in_bounds a c then
    if bool_decide (c ∉ moves_made a) && bool_decide (c ∉ mines a)
    then ({[c]} ∪ acc.1, acc.2)
    else if bool_decide (c ∈ mines a) then (acc.1, acc.2 - 1)
    else acc
  else acc.

(** The two loops, from [cells = set()] and the [count] passed in. *)
Definition scan (a : t) (cell : Cell) (count : Z) : gset Cell * Z :=
  foldl (scan_step a cell) (∅, count) (window cell).

(** [self.moves_made.add(cell)] *)
Definition add_move (cell : Cell) (a : t) : t :=
  {| height := height a; width := width a;
     moves_made := {[cell]} ∪ moves_made a;
     mines := mines a; safes := safes a; knowledge := knowledge a;
     fresh := fresh a |}.

(** [self.knowledge.append(Sentence(cells, count))] *)
Definition append (s : Sentence.t) (a : t) : t :=
  set_knowledge (knowledge a ++ [(fresh a, s)]) (S (fresh a)) a.

(** Steps 1 to 3: record the move, mark it safe, append the new sentence. *)
Definition observe (cell : Cell) (count : Z) (a : t) : t :=
  let a1 := mark_safe cell (add_move cell a) in
  let r := scan a1 cell count in
  append (Sentence.mk r.1 r.2) a1.

(** *** add_knowledge, step 4 *)

(** [for safe in safes.copy(): self.mark_safe(safe)] and the same for
    mines. *)
Definition mark_safes (X : gset Cell) (a : t) : t :=
  foldl (λ a c, mark_safe c a) a (elements X).

Definition mark_mines (X : gset Cell) (a : t) : t :=
  foldl (λ a c, mark_mine c a) a (elements X).

(** Body of [for sentence in self.knowledge], for the sentence at index
    [i].  The sentence is read again before [known_mines], since marking
    its cells safe has changed it. *)
Definition visit (i : nat) (a : t) : t :=
  let a1 :=
    match knowledge a !! i with
    | Some (_, s) =>
        let r := Sentence.known_safes s in
        if truthy r then mark_safes (default ∅ r) a else a
    | None => a
    end in
  match knowledge a1 !! i with
  | Some (_, s) =>
      let r := Sentence.known_mines s in
      if truthy r then mark_mines (default ∅ r) a1 else a1
  | None => a1
  end.

(** The loop; [n] counts the entries still to be visited (marking never
    changes the length of the list). *)
Fixpoint sweep (n i : nat) (a : t) : t :=
  match n with
  | O => a
  | S n' => sweep n' (S i) (visit i a)
  end.

(** Step 4. *)
Definition closure (a : t) : t := sweep (length (knowledge a)) 0 a.

(** *** add_knowledge, step 5 *)

(** [x == y] on list entries as [list.remove] and [in] test it: the same
    object, or equal by [__eq__]. *)
Definition same (x y : ident * Sentence.t) : bool :=
  bool_decide (x.1 = y.1) || Sentence.eqb x.2 y.2.

(** [x in self.knowledge] *)
Definition contains (x : ident * Sentence.t) (k : list (ident * Sentence.t)) : bool :=
  existsb (λ y, same y x) k.

(** [self.knowledge.remove(x)]: drops the first entry equal to [x];
    [None] stands for the [ValueError] raised when there is none. *)
Fixpoint list_remove (x : ident * Sentence.t) (k : list (ident * Sentence.t))
  : option (list (ident * Sentence.t)) :=
  match k with
  | [] => None
  | y :: k' => if same y x then Some k' else (y ::.) <$> list_remove x k'
  end.

(** [Sentence(sentence2.cells - sentence1.cells,
             sentence2.count - sentence1.count)] *)
Definition difference (s1 s2 : Sentence.t) : Sentence.t :=
  Sentence.mk (Sentence.cells s2 ∖ Sentence.cells s1)
              (Sentence.count s2 - Sentence.count s1).

(** How a run of the two nested loops can end. *)
Inductive outcome (A : Type) : Type :=
| Done (a : A)      (* the loops ran to their end *)
| Raised            (* [ValueError] from [list.remove] *)
| NoFuel.           (* still running when the fuel ran out *)
Arguments Done {A} a.
Arguments Raised {A}.
Arguments NoFuel {A}.

(** Sequencing: what follows runs only after a run that ended. *)
Definition bind {A B : Type} (m : outcome A) (f : A → outcome B) : outcome B :=
  match m with
  | Done a => f a
  | Raised => Raised
  | NoFuel => NoFuel
  end.

(** The list and the identity counter, as the loops update them. *)
Definition kstate : Type := list (ident * Sentence.t) * ident.

(** Body of [for sentence2 in self.knowledge], for the entry [s2] just
    read at the iterator's index. *)
Definition pair_step (s1 s2 : ident * Sentence.t) (st : kstate) : outcome kstate :=
  let '(k, f) := st in
  if bool_decide (s1.1 = s2.1) then Done (k, f)
  else if Sentence.eqb s1.2 s2.2 then
    match list_remove s2 k with
    | Some k' => Done (k', f)
    | None => Raised
    end
  else if bool_decide (Sentence.cells s1.2 ⊆ Sentence.cells s2.2) then
    let new := (f, difference s1.2 s2.2) in
    if contains new k then Done (k, S f) else Done (k ++ [new], S f)
  else Done (k, f).

(** The inner loop from index [j]: the list iterator reads entry [j] of
    the list as it is now and stops when [j] is past its end.  The list
    may grow while the loop runs, so the loop is cut off after [fuel]
    entries; a run that is [NoFuel] for every [fuel] is a loop that never
    ends. *)
Fixpoint inner (fuel : nat) (s1 : ident * Sentence.t) (j : nat) (st : kstate)
  : outcome kstate :=
  match fuel with
  | O => NoFuel
  | S fuel' =>
      match st.1 !! j with
      | None => Done st
      | Some s2 => bind (pair_step s1 s2 st) (inner fuel' s1 (S j))
      end
  end.

(** The outer loop from index [i]. *)
Fixpoint outer (fuel : nat) (i : nat) (st : kstate) : outcome kstate :=
  match fuel with
  | O => NoFuel
  | S fuel' =>
      match st.1 !! i with
      | None => Done st
      | Some s1 => bind (inner fuel' s1 0 st) (outer fuel' (S i))
      end
  end.

(** Step 5 on the agent: only [self.knowledge] changes. *)
Definition subsume (fuel : nat) (a : t) : outcome t :=
  bind (outer fuel 0 (knowledge a, fresh a))
       (λ st, Done (set_knowledge st.1 st.2 a)).

(** *** add_knowledge

    Steps 1 to 3, then the loop of step 4, then the loops of step 5, each
    once. *)
Definition add_knowledge (fuel : nat) (cell : Cell) (count : Z) (a : t) : outcome t :=
  subsume fuel (closure (observe cell count a)).

(** *** The two move selectors *)

(** [random.choice] on a sequence known to be non-empty, with [r] the value
    drawn by the generator.  The order in which Python lists a set is not
    specified; as [r] is arbitrary, every member can be the one chosen. *)
Definition choice {A : Type} (r : nat) (x : A) (xs : list A) : A :=
  nth (r mod S (length xs)) (x :: xs) x.

(** [make_safe_move]; the agent is returned along with the move, as the
    method leaves it. *)
Definition make_safe_move (r : nat) (a : t) : option Cell * t :=
  let available_moves := safes a ∖ moves_made a in
  match elements available_moves with
  | [] => (None, a)
  | x :: xs => (Some (choice r x xs), a)
  end.

(** [(i, j) for i in range(self.height) for j in range(self.width)] *)
Definition grid (a : t) : list Cell :=
  i ← (seqZ 0 (height a)); j ← (seqZ 0 (width a)); [(i, j)].

(** [make_random_move] *)
Definition make_random_move (r : nat) (a : t) : option Cell * t :=
  if bool_decide (Z.of_nat (size (mines a)) + Z.of_nat (size (moves_made a))
                  = height a * width a)
  then (None, a)
  else
    let possible_moves :=
      filter (λ c, (c ∉ moves_made a) ∧ (c ∉ mines a)) (grid a) in
    match possible_moves with
    | [] => (None, a)
    | x :: xs => (Some (choice r x xs), a)
    end.

End MinesweeperAI.

(** ** class Minesweeper *)

(** The board, as far as the agent's input depends on it: its size and
    where its mines are ([board[i][j]] is true exactly for the cells of
    [mines]). *)
Module Minesweeper.

Record t : Type := mk { height : Z; width : Z; mines : gset Cell }.

(** Body of the inner loop of [nearby_mines], on the local [count]. *)
Definition count_step (b : t) (cell : Cell) (count : Z) (c : Cell) : Z :=
  if bool_decide (c = cell) then count
  else if bool_decide (0 ≤ c.1 < height b) && bool_decide (0 ≤ c.2 < width b)
  then if bool_decide (c ∈ mines b) then count + 1 else count
  else count.

(** [nearby_mines]: the mines within one row and column of [cell]. *)
Definition nearby_mines (b : t) (cell : Cell) : Z :=
  foldl (count_step b cell) 0 (MinesweeperAI.window cell).

End Minesweeper.

(** ** class Minesweeper, with the board as the list of rows it is *)

Module MinesweeperBoard.

(** The exceptions the class can raise. *)
Inductive exn : Type := ValueError | IndexError.

(** How a call can end. *)
Inductive result (A : Type) : Type :=
| Ok (a : A)
| Error (e : exn)
| OutOfDraws.       (* the loop was still running after the last draw *)
Arguments Ok {A} a.
Arguments Error {A} e.
Arguments OutOfDraws {A}.

Record t : Type := mk {
  height : Z;
  width : Z;
  mines : gset Cell;
  board : list (list bool);
  mines_found : gset Cell
}.

(** [l[i]] for a Python list: a negative index counts from the end;
    [None] stands for [IndexError]. *)
Definition index {A : Type} (l : list A) (i : Z) : option A :=
  if bool_decide (0 ≤ i) then l !! Z.to_nat i
  else if bool_decide (0 ≤ Z.of_nat (length l) + i)
       then l !! Z.to_nat (Z.of_nat (length l) + i)
       else None.

(** [self.board[i][j]] *)
Definition cell_at (b : list (list bool)) (c : Cell) : option bool :=
  index b c.1 ≫= λ row, index row c.2.

(** [self.board[i][j] = True], for the indices [random.randrange] gives. *)
Definition store (b : list (list bool)) (c : Cell) : list (list bool) :=
  alter (λ row, <[Z.to_nat c.2 := true]> row) (Z.to_nat c.1) b.

(** [random.randrange(n)], with [r] the value drawn by the generator;
    [None] stands for the [ValueError] raised when [n <= 0]. *)
Definition randrange (r : nat) (n : Z) : option Z :=
  if bool_decide (0 < n) then Some (Z.of_nat r mod n) else None.

(** The board of [False] built by the two nested loops of [__init__]. *)
Definition blank (height width : Z) : list (list bool) :=
  replicate (Z.to_nat height) (replicate (Z.to_nat width) false).

(** [while len(self.mines) != mines: ...], one pair of draws per turn. *)
Fixpoint place (height width target : Z) (draws : list (nat * nat))
    (m : gset Cell) (b : list (list bool))
  : result (gset Cell * list (list bool)) :=
  if bool_decide (Z.of_nat (size m) = target) then Ok (m, b)
  else
    match draws with
    | [] => OutOfDraws
    | (r1, r2) :: draws' =>
        match randrange r1 height with
        | None => Error ValueError
        | Some i =>
            match randrange r2 width with
            | None => Error ValueError
            | Some j =>
                match cell_at b (i, j) with
                | None => Error IndexError
                | Some true => place height width target draws' m b
                | Some false =>
                    place height width target draws'
                          ({[ (i, j) ]} ∪ m) (store b (i, j))
                end
            end
        end
    end.

(** [Minesweeper(height, width, mines)] *)
Definition init (height width mines : Z) (draws : list (nat * nat)) : result t :=
  match place height width mines draws ∅ (blank height width) with
  | Ok (m, b) => Ok (mk height width m b ∅)
  | Error e => Error e
  | OutOfDraws => OutOfDraws
  end.

(** [is_mine] *)
Definition is_mine (g : t) (cell : Cell) : result bool :=
  match cell_at (board g) cell with
  | Some x => Ok x
  | None => Error IndexError
  end.

(** Body of the inner loop of [nearby_mines], on the local [count]. *)
Definition count_step (g : t) (cell : Cell) (acc : result Z) (c : Cell)
  : result Z :=
  match acc with
  | Ok count =>
      if bool_decide (c = cell) then Ok count
      else if bool_decide (0 ≤ c.1 < height g) && bool_decide (0 ≤ c.2 < width g)
      then match cell_at (board g) c with
           | Some true => Ok (count + 1)
           | Some false => Ok count
           | None => Error IndexError
           end
      else Ok count
  | _ => acc
  end.

(** [nearby_mines] *)
Definition nearby_mines (g : t) (cell : Cell) : result Z :=
  foldl (count_step g cell) (Ok 0) (MinesweeperAI.window cell).

(** [won] *)
Definition won (g : t) : bool := bool_decide (mines_found g = mines g).

End MinesweeperBoard.

(** * Vocabulary of the statements *)

(** ** The agent invariant *)




(** A cell [make_random_move] may choose: on the grid, not yet played and
    not known to be a mine. *)
Definition open_cell (a : MinesweeperAI.t) (c : Cell) : Prop :=
  c ∈ MinesweeperAI.grid a ∧
  (c ∉ MinesweeperAI.moves_made a) ∧ (c ∉ MinesweeperAI.mines a).

(** ** The list of sentences *)

(** Objects in the list are distinct and older than the next identity. *)
Definition wf_idents (st : MinesweeperAI.kstate) : Prop :=
  NoDup (st.1.*1) ∧ Forall (λ x, (x.1 < st.2)%nat) st.1.

(** No two entries are equal by [__eq__]. *)
Definition distinct (k : list (ident * Sentence.t)) : Prop := NoDup (k.*2).

(** The sentence is true of the board whose mines are [M]. *)
Definition holds (M : gset Cell) (s : Sentence.t) : Prop :=
  Sentence.count s = Z.of_nat (size (Sentence.cells s ∩ M)).

Definition consistent (M : gset Cell) (k : list (ident * Sentence.t)) : Prop :=
  Forall (λ y, holds M y.2) k.

(** All cells mentioned are in [U]. *)
Definition within (U : gset Cell) (k : list (ident * Sentence.t)) : Prop :=
  Forall (λ y, Sentence.cells y.2 ⊆ U) k.

(** The cells mentioned in the list. *)
Definition cells_of (k : list (ident * Sentence.t)) : gset Cell :=
  ⋃ ((λ y, Sentence.cells y.2) <$> k).

(** The cell sets that occur in the list. *)
Definition cellsets (k : list (ident * Sentence.t)) : gset (gset Cell) :=
  list_to_set ((λ y, Sentence.cells y.2) <$> k).

(** Sentences the subsumption pass can still append, plus those it has to
    visit. *)
Definition room (U : gset Cell) (k : list (ident * Sentence.t)) : nat :=
  (2 ^ size U - size (cellsets k) + length k)%nat.

(** Fuel that lets the subsumption pass run to its end on a list whose
    sentences are true of some board. *)
Definition enough_fuel (k : list (ident * Sentence.t)) : nat :=
  (2 * (2 ^ size (cells_of k) + length k) + 2)%nat.

(** While the inner loop runs for [p], a sentence equal to [p] is in the
    list: [p] itself, or an entry the loop has passed. *)
Definition alive (p : ident * Sentence.t) (j : nat)
    (k : list (ident * Sentence.t)) : Prop :=
  p ∈ k ∨ ∃ m y, (m < j)%nat ∧ k !! m = Some y ∧ y.2 = p.2.

(** What the agent believes is true of the board whose mines are [M]. *)
Definition sound (M : gset Cell) (a : MinesweeperAI.t) : Prop :=
  MinesweeperAI.mines a ⊆ M ∧ MinesweeperAI.safes a ## M ∧
  MinesweeperAI.moves_made a ## M ∧ consistent M (MinesweeperAI.knowledge a).

(** ** The closure sweep *)

(** What a run of [mark_safe] / [mark_mine] calls does to one sentence. *)
Definition marked_safe (l : list Cell) (s : Sentence.t) : Sentence.t :=
  foldl (λ s c, Sentence.mark_safe c s) s l.

Definition marked_mine (l : list Cell) (s : Sentence.t) : Sentence.t :=
  foldl (λ s c, Sentence.mark_mine c s) s l.

(** The two halves of the loop body. *)
Definition visit_safes (i : nat) (a : MinesweeperAI.t) : MinesweeperAI.t :=
  match MinesweeperAI.knowledge a !! i with
  | Some (_, s) =>
      let r := Sentence.known_safes s in
      if truthy r then MinesweeperAI.mark_safes (default ∅ r) a else a
  | None => a
  end.

Definition visit_mines (i : nat) (a : MinesweeperAI.t) : MinesweeperAI.t :=
  match MinesweeperAI.knowledge a !! i with
  | Some (_, s) =>
      let r := Sentence.known_mines s in
      if truthy r then MinesweeperAI.mark_mines (default ∅ r) a else a
  | None => a
  end.

(** What the sweep never touches, and what it only enlarges. *)
Definition extends (a a' : MinesweeperAI.t) : Prop :=
  MinesweeperAI.height a' = MinesweeperAI.height a ∧
  MinesweeperAI.width a' = MinesweeperAI.width a ∧
  MinesweeperAI.moves_made a' = MinesweeperAI.moves_made a ∧
  MinesweeperAI.fresh a' = MinesweeperAI.fresh a ∧
  (MinesweeperAI.knowledge a').*1 = (MinesweeperAI.knowledge a).*1 ∧
  MinesweeperAI.safes a ⊆ MinesweeperAI.safes a' ∧
  MinesweeperAI.mines a ⊆ MinesweeperAI.mines a'.

(** Entry [y] is entry [x] after some of its cells were marked: the same
    object, with fewer cells, all of the missing ones in [S], and a count
    lowered by at most the number of missing cells. *)
Definition shrunk_to (S : gset Cell) (x y : ident * Sentence.t) : Prop :=
  x.1 = y.1 ∧
  Sentence.cells y.2 ⊆ Sentence.cells x.2 ∧
  Sentence.cells x.2 ∖ Sentence.cells y.2 ⊆ S ∧
  Sentence.count y.2 ≤ Sentence.count x.2 ∧
  Sentence.count x.2 - Sentence.count y.2
  ≤ Z.of_nat (size (Sentence.cells x.2 ∖ Sentence.cells y.2)).

(** No sentence mentions a played cell or a known mine. *)
Definition unmentioned (a : MinesweeperAI.t) : Prop :=
  Forall (λ x, Sentence.cells x.2
               ## MinesweeperAI.moves_made a ∪ MinesweeperAI.mines a)
         (MinesweeperAI.knowledge a).

(** ** Neighbours *)

(** The cells of a board of [h] rows and [w] columns that the two nested
    [range] loops keep: within one row and one column of [cell], on the
    board, and not [cell] itself. *)
Definition neighbours (h w : Z) (cell : Cell) : gset Cell :=
  list_to_set (filter (λ c, c ≠ cell ∧ 0 ≤ c.1 < h ∧ 0 ≤ c.2 < w)
                      (MinesweeperAI.window cell)).

(** ** The board *)

(** The list of rows [b] is a table of [h] rows of [w] cells that is true
    exactly at the cells of [m], which are all on the board. *)
Definition table (h w : Z) (m : gset Cell) (b : list (list bool)) : Prop :=
  length b = Z.to_nat h ∧
  Forall (λ row, length row = Z.to_nat w) b ∧
  (∀ c, c ∈ m → 0 ≤ c.1 < h ∧ 0 ≤ c.2 < w) ∧
  (∀ c, 0 ≤ c.1 < h → 0 ≤ c.2 < w →
        MinesweeperBoard.cell_at b c = Some (bool_decide (c ∈ m))).

(** The invariant that links [self.board] to [self.mines]. *)
Definition well_formed (g : MinesweeperBoard.t) : Prop :=
  table (MinesweeperBoard.height g) (MinesweeperBoard.width g)
        (MinesweeperBoard.mines g) (MinesweeperBoard.board g).

(** The board with its list of rows left out. *)
Definition view (g : MinesweeperBoard.t) : Minesweeper.t :=
  Minesweeper.mk (MinesweeperBoard.height g) (MinesweeperBoard.width g)
                 (MinesweeperBoard.mines g).

(** The draws that make [random.randrange] give the row and the column of
    each cell of [l] in turn. *)
Definition draws_for (l : list Cell) : list (nat * nat) :=
  (λ c, (Z.to_nat c.1, Z.to_nat c.2)) <$> l.

(** ** Scenarios *)

(** The agent an operation returned ([d] when it did not return). *)
Definition returned (o : MinesweeperAI.outcome MinesweeperAI.t)
    (d : MinesweeperAI.t) : MinesweeperAI.t :=
  match o with MinesweeperAI.Done a => a | _ => d end.

(** A driver: the observations [obs] are fed to [add_knowledge] in turn. *)
Definition play (fuel : nat) (obs : list (Cell * Z)) (a : MinesweeperAI.t)
  : MinesweeperAI.outcome MinesweeperAI.t :=
  foldl (λ o x, MinesweeperAI.bind o (MinesweeperAI.add_knowledge fuel x.1 x.2))
        (MinesweeperAI.Done a) obs.

(** A board of 3 rows and 2 columns whose mine is at (1,1), after (0,0)
    was revealed. *)
Definition tall_board : MinesweeperAI.t :=
  returned (play 10 [((0, 0), 1)] (MinesweeperAI.init 3 2)) (MinesweeperAI.init 3 2).

(** A board of 2 rows and 3 columns whose mine is at (0,1), after (0,0)
    and (0,2) were revealed. *)
Definition wide_board : MinesweeperAI.t :=
  returned (play 10 [((0, 0), 1); ((0, 2), 1)] (MinesweeperAI.init 2 3))
           (MinesweeperAI.init 2 3).

(** A board of 3 rows and 3 columns whose mine is at (2,2), after (0,0)
    was revealed. *)
Definition square_board : MinesweeperAI.t :=
  returned (play 10 [((0, 0), 0)] (MinesweeperAI.init 3 3)) (MinesweeperAI.init 3 3).

(** A board of 1 row and 2 columns, after (0,0) was revealed with the
    count 2, which no board of that size can give. *)
Definition short_board : MinesweeperAI.t :=
  returned (play 10 [((0, 0), 2)] (MinesweeperAI.init 1 2)) (MinesweeperAI.init 1 2).

(** The same on a board of 1 row and 4 columns. *)
Definition narrow_board : MinesweeperAI.t :=
  returned (play 10 [((0, 0), 2)] (MinesweeperAI.init 1 4)) (MinesweeperAI.init 1 4).

(** The sentence "no cells, 2 mines", first in the list of [short_board]. *)
Definition two_of_none : ident * Sentence.t := (0%nat, Sentence.mk ∅ 2).

(** The list while the inner loop runs for [two_of_none] at index [j]:
    entry [j] is the last one, it is "no cells, [2 - 2j] mines", and no
    entry has a smaller count. *)
Definition chain (j : nat) (st : MinesweeperAI.kstate) : Prop :=
  length st.1 = S j ∧
  (∃ i, i ≠ 0%nat ∧
        st.1 !! j = Some (i, Sentence.mk ∅ (2 - 2 * Z.of_nat j))) ∧
  Forall (λ y, (y.1 < st.2)%nat ∧ Sentence.cells y.2 = ∅ ∧
               2 - 2 * Z.of_nat j ≤ Sentence.count y.2) st.1.

(** A small board: 2 rows, 2 columns, one mine, placed at (0,1) by the
    first pair of draws. *)
Definition small_board : MinesweeperBoard.t :=
  match MinesweeperBoard.init 2 2 1 [(0%nat, 1%nat)] with
  | MinesweeperBoard.Ok g => g
  | _ => MinesweeperBoard.mk 0 0 ∅ [] ∅
  end.

(** Closed facts about the scenarios are settled by evaluation. *)
Ltac by_computation := apply (bool_decide_unpack _); vm_compute; exact I.

(** * Properties of [Sentence] *)

Section sentence_facts.
Implicit Types (s : Sentence.t) (c : Cell).

Lemma sentence_eqb_eq s o : Sentence.eqb s o = true ↔ s = o.
Proof.
  unfold Sentence.eqb. rewrite andb_true_iff, !bool_decide_eq_true.
  destruct s, o; simpl. split; [intros [-> ->]; done | intros [= -> ->]; done].
Qed.

Lemma sentence_mark_mine_in s c :
  c ∈ Sentence.cells s →
  Sentence.mark_mine c s
  = Sentence.mk (Sentence.cells s ∖ {[c]}) (Sentence.count s - 1).
Proof. intros H. unfold Sentence.mark_mine. by rewrite bool_decide_eq_true_2. Qed.

Lemma sentence_mark_mine_notin s c :
  c ∉ Sentence.cells s → Sentence.mark_mine c s = s.
Proof. intros H. unfold Sentence.mark_mine. by rewrite bool_decide_eq_false_2. Qed.

Lemma sentence_mark_safe_in s c :
  c ∈ Sentence.cells s →
  Sentence.mark_safe c s
  = Sentence.mk (Sentence.cells s ∖ {[c]}) (Sentence.count s).
Proof. intros H. unfold Sentence.mark_safe. by rewrite bool_decide_eq_true_2. Qed.

Lemma sentence_mark_safe_notin s c :
  c ∉ Sentence.cells s → Sentence.mark_safe c s = s.
Proof. intros H. unfold Sentence.mark_safe. by rewrite bool_decide_eq_false_2. Qed.

Lemma sentence_mark_mine_cells s c :
  Sentence.cells (Sentence.mark_mine c s) = Sentence.cells s ∖ {[c]}.
Proof.
  destruct (decide (c ∈ Sentence.cells s)) as [H|H].
  - by rewrite sentence_mark_mine_in.
  - rewrite sentence_mark_mine_notin by done.
    symmetry. apply difference_disjoint_L. set_solver.
Qed.

Lemma sentence_mark_safe_cells s c :
  Sentence.cells (Sentence.mark_safe c s) = Sentence.cells s ∖ {[c]}.
Proof.
  destruct (decide (c ∈ Sentence.cells s)) as [H|H].
  - by rewrite sentence_mark_safe_in.
  - rewrite sentence_mark_safe_notin by done.
    symmetry. apply difference_disjoint_L. set_solver.
Qed.

Lemma sentence_mark_safe_count s c :
  Sentence.count (Sentence.mark_safe c s) = Sentence.count s.
Proof. unfold Sentence.mark_safe. by case_bool_decide. Qed.

Lemma size_remove_in (X : gset Cell) c :
  c ∈ X → Z.of_nat (size (X ∖ {[c]})) = Z.of_nat (size X) - 1.
Proof.
  intros H. rewrite size_difference by set_solver. rewrite size_singleton.
  assert (size X ≠ 0%nat) by (apply size_non_empty_iff; set_solver). lia.
Qed.

Lemma sentence_mark_mine_idemp s c :
  Sentence.mark_mine c (Sentence.mark_mine c s) = Sentence.mark_mine c s.
Proof.
  apply sentence_mark_mine_notin. rewrite sentence_mark_mine_cells.
  rewrite elem_of_difference, elem_of_singleton. tauto.
Qed.

Lemma sentence_mark_safe_idemp s c :
  Sentence.mark_safe c (Sentence.mark_safe c s) = Sentence.mark_safe c s.
Proof.
  apply sentence_mark_safe_notin. rewrite sentence_mark_safe_cells.
  rewrite elem_of_difference, elem_of_singleton. tauto.
Qed.

End sentence_facts.

(** C3: [known_mines] returns [cells] exactly when [count == len(cells)]
    and [None] otherwise; the value it returns is true for [if mines:]
    exactly when moreover [cells] is not empty.  For an empty [cells] with
    count 0 the result is the empty set, not [None]. *)
Theorem known_mines_spec (s : Sentence.t) :
  (Sentence.count s = Sentence.len s →
     Sentence.known_mines s = Some (Sentence.cells s)) ∧
  (Sentence.count s ≠ Sentence.len s → Sentence.known_mines s = None) ∧
  (truthy (Sentence.known_mines s) = true ↔
     Sentence.count s = Sentence.len s ∧ Sentence.cells s ≠ ∅).
Proof.
  unfold Sentence.known_mines. case_bool_decide as E; simpl.
  - split; [done|]. split; [done|].
    rewrite negb_true_iff, bool_decide_eq_false. tauto.
  - split; [done|]. split; [done|]. split; [done | tauto].
Qed.

Lemma known_mines_spec_witness :
  let s := Sentence.mk {[ (0, 1); (1, 1) ]} 2 in
  Sentence.known_mines s = Some (Sentence.cells s).
Proof.
  intros s. apply (proj1 (known_mines_spec s)).
  vm_compute. reflexivity.
Defined.

(** C3, as stated, fails on the empty sentence with count 0: the result is
    the (empty) cell set, which is not [None]. *)
Lemma known_mines_empty_is_not_None :
  Sentence.cells (Sentence.mk ∅ 0) = ∅ ∧
  Sentence.known_mines (Sentence.mk ∅ 0) = Some ∅ ∧
  Sentence.known_mines (Sentence.mk ∅ 0) ≠ None.
Proof. split; [reflexivity|]. split; [reflexivity | discriminate]. Qed.

(** C4: neither mutation enlarges [cells]; [mark_mine] keeps
    [count ≤ len(cells)] and [mark_safe] keeps [0 ≤ count]; the other half
    of the invariant survives [mark_mine] when the count was positive and
    [mark_safe] when the count was below [len(cells)]; for a cell that is
    not a member both leave the sentence as it is. *)
Theorem sentence_marks_bounds (s : Sentence.t) (c : Cell) :
  (Sentence.len (Sentence.mark_mine c s) ≤ Sentence.len s) ∧
  (Sentence.len (Sentence.mark_safe c s) ≤ Sentence.len s) ∧
  (Sentence.count s ≤ Sentence.len s →
     Sentence.count (Sentence.mark_mine c s) ≤ Sentence.len (Sentence.mark_mine c s)) ∧
  (0 ≤ Sentence.count s → 0 ≤ Sentence.count (Sentence.mark_safe c s)) ∧
  (0 < Sentence.count s → 0 ≤ Sentence.count (Sentence.mark_mine c s)) ∧
  (Sentence.count s < Sentence.len s →
     Sentence.count (Sentence.mark_safe c s) ≤ Sentence.len (Sentence.mark_safe c s)) ∧
  (c ∉ Sentence.cells s →
     Sentence.mark_mine c s = s ∧ Sentence.mark_safe c s = s).
Proof.
  unfold Sentence.len.
  destruct (decide (c ∈ Sentence.cells s)) as [H|H].
  - rewrite sentence_mark_mine_in, sentence_mark_safe_in by done. simpl.
    rewrite size_remove_in by done.
    repeat (split; [lia|]). done.
  - rewrite sentence_mark_mine_notin, sentence_mark_safe_notin by done.
    repeat (split; [lia|]). done.
Qed.

Lemma sentence_marks_bounds_witness :
  let s := Sentence.mk {[ (0, 1); (1, 1) ]} 1 in
  Sentence.count (Sentence.mark_mine (0, 1) s)
  ≤ Sentence.len (Sentence.mark_mine (0, 1) s).
Proof.
  intros s.
  apply (proj1 (proj2 (proj2 (sentence_marks_bounds s (0, 1))))).
  vm_compute. discriminate.
Defined.

(** C4, as stated, fails: a sentence within [0 ≤ count ≤ len(cells)] leaves
    that range when a member is marked safe while [count = len(cells)], and
    when a member is marked a mine while [count = 0]. *)
Lemma sentence_marks_break_invariant :
  let s := Sentence.mk {[ (0, 0) ]} 1 in
  let z := Sentence.mk {[ (0, 0) ]} 0 in
  (0 ≤ Sentence.count s ≤ Sentence.len s) ∧
  ¬ (Sentence.count (Sentence.mark_safe (0, 0) s)
     ≤ Sentence.len (Sentence.mark_safe (0, 0) s)) ∧
  (0 ≤ Sentence.count z ≤ Sentence.len z) ∧
  ¬ (0 ≤ Sentence.count (Sentence.mark_mine (0, 0) z)).
Proof. vm_compute. intuition congruence. Qed.

(** * Properties of the agent's marking and move selection *)

Section agent_facts.
Import MinesweeperAI.
Implicit Types (a : MinesweeperAI.t) (c : Cell).

Lemma choice_elem_of {A : Type} (r : nat) (x : A) (xs : list A) :
  MinesweeperAI.choice r x xs ∈ x :: xs.
Proof.
  unfold MinesweeperAI.choice. apply list_elem_of_In, nth_In.
  cbn [length]. apply Nat.mod_upper_bound. lia.
Qed.

(** Every member can be the one drawn. *)
Lemma choice_any {A : Type} (x y : A) (xs : list A) :
  y ∈ x :: xs → ∃ r, MinesweeperAI.choice r x xs = y.
Proof.
  intros Hy. apply list_elem_of_lookup_1 in Hy as [r Hr]. exists r.
  unfold MinesweeperAI.choice.
  pose proof (lookup_lt_Some _ _ _ Hr) as Hlt. cbn [length] in Hlt.
  rewrite Nat.mod_small by done.
  by apply nth_lookup_Some with (d := x) in Hr.
Qed.



Lemma elem_of_grid a c :
  c ∈ MinesweeperAI.grid a ↔
  0 ≤ c.1 < MinesweeperAI.height a ∧ 0 ≤ c.2 < MinesweeperAI.width a.
Proof.
  unfold MinesweeperAI.grid. destruct c as [i j]. simpl.
  rewrite list_elem_of_bind. split.
  - intros (i' & Hj & Hi). apply list_elem_of_bind in Hj as (j' & Hc & Hj).
    apply list_elem_of_singleton in Hc as [= -> ->].
    apply elem_of_seqZ in Hi, Hj. lia.
  - intros [Hi Hj]. exists i. split; [|apply elem_of_seqZ; lia].
    apply list_elem_of_bind. exists j. split; [|apply elem_of_seqZ; lia].
    by apply list_elem_of_singleton.
Qed.

Lemma NoDup_grid a : NoDup (MinesweeperAI.grid a).
Proof.
  unfold MinesweeperAI.grid. apply NoDup_bind.
  - intros i1 i2 c _ _ H1 H2.
    apply list_elem_of_bind in H1 as (j1 & H1 & _).
    apply list_elem_of_bind in H2 as (j2 & H2 & _).
    apply list_elem_of_singleton in H1, H2. congruence.
  - intros i _. apply NoDup_bind.
    + intros j1 j2 c _ _ H1 H2.
      apply list_elem_of_singleton in H1, H2. congruence.
    + intros j _. apply NoDup_singleton.
    + apply NoDup_seqZ.
  - apply NoDup_seqZ.
Qed.

End agent_facts.

(** C7: the agent's [mark_mine] and [mark_safe] are idempotent: marking the
    same cell a second time leaves the whole agent as the first call left
    it. *)
Theorem agent_marks_idempotent (a : MinesweeperAI.t) (c : Cell) :
  MinesweeperAI.mark_mine c (MinesweeperAI.mark_mine c a)
  = MinesweeperAI.mark_mine c a ∧
  MinesweeperAI.mark_safe c (MinesweeperAI.mark_safe c a)
  = MinesweeperAI.mark_safe c a.
Proof.
  unfold MinesweeperAI.mark_mine, MinesweeperAI.mark_safe; simpl. split; f_equal.
  - rewrite (assoc_L (∪)). by rewrite (idemp_L (∪)).
  - rewrite <- list_fmap_compose. apply list_fmap_ext. intros _ [i s] _. simpl.
    unfold prod_map; simpl. by rewrite sentence_mark_mine_idemp.
  - rewrite (assoc_L (∪)). by rewrite (idemp_L (∪)).
  - rewrite <- list_fmap_compose. apply list_fmap_ext. intros _ [i s] _. simpl.
    unfold prod_map; simpl. by rewrite sentence_mark_safe_idemp.
Qed.

(** C8: [make_safe_move] returns a member of [safes - moves_made] when that
    set is not empty and [None] when it is, and leaves the agent as it
    was. *)
Theorem make_safe_move_spec (r : nat) (a : MinesweeperAI.t) :
  (MinesweeperAI.make_safe_move r a).2 = a ∧
  (MinesweeperAI.safes a ∖ MinesweeperAI.moves_made a ≠ ∅ →
     ∃ c, (MinesweeperAI.make_safe_move r a).1 = Some c ∧
          c ∈ MinesweeperAI.safes a ∖ MinesweeperAI.moves_made a) ∧
  (MinesweeperAI.safes a ∖ MinesweeperAI.moves_made a = ∅ →
     (MinesweeperAI.make_safe_move r a).1 = None).
Proof.
  unfold MinesweeperAI.make_safe_move.
  destruct (elements _) as [|x xs] eqn:E; simpl.
  - apply elements_empty_inv in E. apply leibniz_equiv in E.
    split; [done|]. split; [congruence | done].
  - split; [done|]. split.
    + intros _. eexists. split; [done|]. apply elem_of_elements. rewrite E.
      apply choice_elem_of.
    + intros H. rewrite H, elements_empty in E. discriminate.
Qed.

Lemma make_safe_move_spec_witness :
  let a := MinesweeperAI.mark_safe (1, 0) (MinesweeperAI.init 2 2) in
  ∃ c, (MinesweeperAI.make_safe_move 5 a).1 = Some c ∧
       c ∈ MinesweeperAI.safes a ∖ MinesweeperAI.moves_made a.
Proof.
  intros a. apply (proj1 (proj2 (make_safe_move_spec 5 a))).
  vm_compute. discriminate.
Defined.

Section random_move_facts.
Implicit Types (a : MinesweeperAI.t) (c : Cell).

Lemma length_grid a :
  MinesweeperAI.grid a ≠ [] →
  Z.of_nat (length (MinesweeperAI.grid a))
  = MinesweeperAI.height a * MinesweeperAI.width a.
Proof.
  unfold MinesweeperAI.grid. intros Hne.
  assert (Hlen : ∀ l : list Z,
    length (l ≫= λ i, seqZ 0 (MinesweeperAI.width a) ≫= λ j, [(i, j)])
    = (length l * Z.to_nat (MinesweeperAI.width a))%nat).
  { induction l as [|i l IH]; [done|]. rewrite bind_cons, length_app, IH.
    simpl. f_equal.
    generalize (seqZ 0 (MinesweeperAI.width a)) (length_seqZ 0 (MinesweeperAI.width a)).
    intros l' <-. induction l' as [|j l' IH']; [done|].
    rewrite bind_cons. simpl. by rewrite IH'. }
  rewrite Hlen, length_seqZ.
  destruct (decide (0 < MinesweeperAI.height a)) as [Hh|Hh].
  - destruct (decide (0 < MinesweeperAI.width a)) as [Hw|Hw].
    { rewrite Nat2Z.inj_mul, !Z2Nat.id by lia. done. }
    exfalso. apply Hne. rewrite (seqZ_nil 0 (MinesweeperAI.width a)) by lia.
    generalize (seqZ 0 (MinesweeperAI.height a)).
    induction l as [|i l IH]; [done|]. by rewrite bind_cons, IH.
  - exfalso. apply Hne.
    by rewrite (seqZ_nil 0 (MinesweeperAI.height a)) by lia.
Qed.

(** When the played cells and the known mines are disjoint and on the
    grid, the count tested by [make_random_move] is reached only when no
    cell is left. *)
Lemma full_board_no_open_cell a c :
  MinesweeperAI.moves_made a ## MinesweeperAI.mines a →
  (∀ x, x ∈ MinesweeperAI.moves_made a ∪ MinesweeperAI.mines a →
        x ∈ MinesweeperAI.grid a) →
  Z.of_nat (size (MinesweeperAI.mines a))
  + Z.of_nat (size (MinesweeperAI.moves_made a))
  = MinesweeperAI.height a * MinesweeperAI.width a →
  ¬ open_cell a c.
Proof.
  intros Hdisj Hgrid Hfull (Hc & Hmv & Hmi).
  set (G := list_to_set (MinesweeperAI.grid a) : gset Cell).
  set (U := MinesweeperAI.moves_made a ∪ MinesweeperAI.mines a).
  assert (HG : size G = length (MinesweeperAI.grid a)).
  { unfold G. apply size_list_to_set, NoDup_grid. }
  assert (HU : size U
               = (size (MinesweeperAI.moves_made a)
                  + size (MinesweeperAI.mines a))%nat).
  { unfold U. by apply size_union. }
  assert (Hne : MinesweeperAI.grid a ≠ []).
  { intros E. rewrite E in Hc. by apply elem_of_nil in Hc. }
  apply length_grid in Hne.
  assert (Hsub : U ⊆ G).
  { intros x Hx. apply elem_of_list_to_set. by apply Hgrid. }
  assert (HcU : c ∉ U) by (unfold U; set_solver).
  assert (HcG : c ∈ G) by (by apply elem_of_list_to_set).
  assert (size ({[c]} ∪ U) ≤ size G)%nat.
  { apply subseteq_size. set_solver. }
  rewrite size_union, size_singleton in * by set_solver. lia.
Qed.

End random_move_facts.

(** C9: [make_random_move] leaves the agent as it was; a cell it returns is
    on the grid, not yet played and not a known mine; it returns [None] when
    [len(mines) + len(moves_made) == height * width]; and when the played
    cells and the known mines are disjoint and on the grid, as the agent
    invariant has them, it returns a cell if one is open and [None] if none
    is. *)
Theorem make_random_move_spec (r : nat) (a : MinesweeperAI.t) :
  (MinesweeperAI.make_random_move r a).2 = a ∧
  (∀ c, (MinesweeperAI.make_random_move r a).1 = Some c → open_cell a c) ∧
  (Z.of_nat (size (MinesweeperAI.mines a))
   + Z.of_nat (size (MinesweeperAI.moves_made a))
   = MinesweeperAI.height a * MinesweeperAI.width a →
     (MinesweeperAI.make_random_move r a).1 = None) ∧
  (MinesweeperAI.moves_made a ## MinesweeperAI.mines a →
   (∀ x, x ∈ MinesweeperAI.moves_made a ∪ MinesweeperAI.mines a →
         x ∈ MinesweeperAI.grid a) →
     ((∃ c, open_cell a c) →
        ∃ c, (MinesweeperAI.make_random_move r a).1 = Some c ∧ open_cell a c) ∧
     ((∀ c, ¬ open_cell a c) →
        (MinesweeperAI.make_random_move r a).1 = None)).
Proof.
  unfold MinesweeperAI.make_random_move.
  assert (Hfil : ∀ c,
    c ∈ filter (λ c, (c ∉ MinesweeperAI.moves_made a) ∧ (c ∉ MinesweeperAI.mines a))
               (MinesweeperAI.grid a) ↔ open_cell a c).
  { intros c. rewrite list_elem_of_filter. unfold open_cell. tauto. }
  case_bool_decide as Hfull; simpl.
  - split; [done|]. split; [done|]. split; [done|].
    intros Hdisj Hgrid. split; [|done].
    intros [c Hc]. by apply full_board_no_open_cell in Hc.
  - destruct (filter _ _) as [|x xs] eqn:E; simpl.
    + split; [done|]. split; [done|]. split; [done|].
      intros _ _. split; [|done].
      intros [c Hc]. apply Hfil in Hc. by apply elem_of_nil in Hc.
    + split; [done|]. split; [|split; [done|]].
      * intros c [= <-]. apply Hfil, choice_elem_of.
      * intros _ _. split.
        -- intros _. eexists. split; [done|]. apply Hfil, choice_elem_of.
        -- intros Hno. exfalso. apply (Hno x), Hfil. left.
Qed.

Lemma make_random_move_spec_witness :
  let a := MinesweeperAI.mark_mine (0, 1)
             (MinesweeperAI.mark_safe (0, 0) (MinesweeperAI.init 1 3)) in
  ∃ c, (MinesweeperAI.make_random_move 4 a).1 = Some c ∧ open_cell a c.
Proof.
  intros a.
  apply (proj2 (proj2 (proj2 (make_random_move_spec 4 a)))).
  - by_computation.
  - intros x Hx. revert x Hx. apply set_Forall_union.
    + unfold set_Forall. by_computation.
    + unfold set_Forall. by_computation.
  - exists (0, 2). unfold open_cell. by_computation.
Defined.

(** The two hypotheses of the last part are needed.  A state in which a
    played cell is also a known mine is outside the agent invariant, and no
    truthful game reaches one (see [truthful_play_disjoint]); in such a
    state the early return counts that cell twice: on a 1x2 board, after
    [mark_mine((0,0))] and [add_knowledge((0,0), 0)] the two sizes add up
    to [height * width], and [None] is returned although [(0,1)] is on the
    grid, not played and not a mine. *)
Lemma make_random_move_overlap :
  ∃ a, MinesweeperAI.add_knowledge 5 (0, 0) 0
         (MinesweeperAI.mark_mine (0, 0) (MinesweeperAI.init 1 2))
       = MinesweeperAI.Done a ∧
       open_cell a (0, 1) ∧
       (MinesweeperAI.make_random_move 0 a).1 = None.
Proof.
  eexists. split; [vm_compute; reflexivity|].
  split; [unfold open_cell; by_computation | vm_compute; reflexivity].
Qed.

(** * The subsumption pass (step 5 of [add_knowledge]) *)

Section subsumption_facts.
Import MinesweeperAI.
Implicit Types (k : list (ident * Sentence.t)) (st r : kstate)
               (x y p q : ident * Sentence.t).

Lemma same_refl x : same x x = true.
Proof. unfold same. by rewrite bool_decide_eq_true_2. Qed.

Lemma contains_true x k :
  contains x k = true → ∃ y, y ∈ k ∧ same y x = true.
Proof.
  unfold contains. intros H. apply existsb_exists in H as (y & Hy & Hs).
  exists y. by rewrite list_elem_of_In.
Qed.

Lemma contains_false x k y :
  contains x k = false → y ∈ k → same y x = false.
Proof.
  unfold contains. intros H Hy.
  destruct (same y x) eqn:E; [|done].
  assert (existsb (λ y, same y x) k = true); [|congruence].
  apply existsb_exists. exists y. by rewrite <- list_elem_of_In.
Qed.

(** [list.remove] finds the entry it is given when that entry is in the
    list: no [ValueError]. *)
Lemma list_remove_is_Some x k : x ∈ k → is_Some (list_remove x k).
Proof.
  induction k as [|y k IH]; intros Hx; [by apply elem_of_nil in Hx|].
  simpl. destruct (same y x) eqn:E; [by eexists|].
  apply elem_of_cons in Hx as [->|Hx]; [by rewrite same_refl in E|].
  destruct (IH Hx) as [k' ->]. by eexists.
Qed.

Lemma list_remove_length x k k' :
  list_remove x k = Some k' → length k = S (length k').
Proof.
  revert k'. induction k as [|y k IH]; intros k' H; [done|]. simpl in H.
  destruct (same y x); [by injection H as <-|].
  destruct (list_remove x k) as [k''|]; [|done].
  injection H as <-. simpl. by rewrite (IH k'').
Qed.

Lemma pair_step_not_Raised p q st :
  q ∈ st.1 → pair_step p q st ≠ Raised.
Proof.
  destruct st as [k f]; simpl. intros Hin. unfold pair_step.
  repeat case_match; try done.
  destruct (list_remove_is_Some q k Hin); congruence.
Qed.

Lemma inner_not_Raised fuel p j st : inner fuel p j st ≠ Raised.
Proof.
  revert j st. induction fuel as [|fuel IH]; intros j st; [done|]. simpl.
  destruct (st.1 !! j) as [q|] eqn:E; [|done].
  pose proof (pair_step_not_Raised p q st (list_elem_of_lookup_2 _ _ _ E)).
  destruct (pair_step p q st); simpl; [apply IH|done|done].
Qed.

Lemma outer_not_Raised fuel i st : outer fuel i st ≠ Raised.
Proof.
  revert i st. induction fuel as [|fuel IH]; intros i st; [done|]. simpl.
  destruct (st.1 !! i) as [p|]; [|done].
  pose proof (inner_not_Raised fuel p 0 st).
  destruct (inner fuel p 0 st); simpl; [apply IH|done|done].
Qed.

(** More fuel does not change a run that has ended. *)
Lemma inner_fuel_mono fuel fuel' p j st r :
  (fuel ≤ fuel')%nat → inner fuel p j st = Done r → inner fuel' p j st = Done r.
Proof.
  revert fuel' j st. induction fuel as [|fuel IH]; intros fuel' j st Hle; [done|].
  destruct fuel' as [|fuel']; [lia|]. simpl.
  destruct (st.1 !! j) as [q|]; [|done].
  destruct (pair_step p q st); simpl; [|done|done].
  apply IH. lia.
Qed.

Lemma outer_fuel_mono fuel fuel' i st r :
  (fuel ≤ fuel')%nat → outer fuel i st = Done r → outer fuel' i st = Done r.
Proof.
  revert fuel' i st. induction fuel as [|fuel IH]; intros fuel' i st Hle; [done|].
  destruct fuel' as [|fuel']; [lia|]. simpl.
  destruct (st.1 !! i) as [p|]; [|done].
  destruct (inner fuel p 0 st) as [st1| |] eqn:E; simpl; [|done|done].
  rewrite (inner_fuel_mono fuel fuel' p 0 st st1) by (done || lia). simpl.
  apply IH. lia.
Qed.

(** The pass changes nothing but the list of sentences. *)
Lemma subsume_frame fuel a a' :
  subsume fuel a = Done a' →
  moves_made a' = moves_made a ∧ safes a' = safes a ∧ mines a' = mines a ∧
  height a' = height a ∧ width a' = width a.
Proof.
  unfold subsume. destruct (outer fuel 0 _); simpl; [|done|done].
  by intros [= <-].
Qed.

End subsumption_facts.

Section subsumption_without_duplicates.
Import MinesweeperAI.
Implicit Types (k : list (ident * Sentence.t)) (st r : kstate)
               (x y p q : ident * Sentence.t).

Lemma NoDup_fmap_eq {A B : Type} (f : A → B) (l : list A) (a b : A) :
  NoDup (f <$> l) → a ∈ l → b ∈ l → f a = f b → a = b.
Proof.
  intros Hnd Ha Hb Hf.
  apply list_elem_of_lookup_1 in Ha as [i Hi], Hb as [j Hj].
  assert (i = j); [|congruence].
  apply (NoDup_lookup (f <$> l) i j (f a)); [done|..].
  - by rewrite list_lookup_fmap, Hi.
  - by rewrite list_lookup_fmap, Hj, Hf.
Qed.

(** One step of the inner loop on a list without duplicates: nothing is
    removed, and the difference of a subset pair is in the list
    afterwards. *)
Lemma pair_step_distinct p q st :
  wf_idents st → distinct st.1 → p ∈ st.1 → q ∈ st.1 →
  ∃ r, pair_step p q st = Done r ∧
       wf_idents r ∧ distinct r.1 ∧ st.1 `prefix_of` r.1 ∧
       (p.1 ≠ q.1 → Sentence.cells p.2 ⊆ Sentence.cells q.2 →
          difference p.2 q.2 ∈ r.1.*2).
Proof.
  destruct st as [k f]. unfold wf_idents, distinct; simpl.
  intros [Hid Hlt] Hval Hp Hq. unfold pair_step.
  case_bool_decide as Eid.
  { eexists. split; [done|]. simpl. by repeat split. }
  destruct (Sentence.eqb p.2 q.2) eqn:Eeq.
  { apply sentence_eqb_eq in Eeq.
    destruct Eid. f_equal. by apply (NoDup_fmap_eq snd k). }
  case_bool_decide as Esub; [|eexists; split; [done|]; simpl; by repeat split].
  destruct (contains _ k) eqn:Ec.
  - eexists. split; [done|]. simpl. repeat split; [done| |done|done|].
    + eapply Forall_impl; [done|]. simpl. lia.
    + intros _ _. apply contains_true in Ec as (y & Hy & Hs).
      unfold same in Hs. simpl in Hs. apply orb_true_iff in Hs as [Hs|Hs].
      * apply bool_decide_eq_true in Hs.
        rewrite Forall_forall in Hlt. apply Hlt in Hy. lia.
      * apply sentence_eqb_eq in Hs. rewrite <- Hs.
        by apply list_elem_of_fmap_2.
  - eexists. split; [done|]. simpl. repeat split.
    + rewrite fmap_app. apply NoDup_app. split; [done|]. split; [|apply NoDup_singleton].
      intros i Hi Hf. apply list_elem_of_singleton in Hf. simpl in Hf. subst i.
      apply list_elem_of_fmap in Hi as (y & -> & Hy).
      rewrite Forall_forall in Hlt. apply Hlt in Hy. lia.
    + apply Forall_app. split.
      * eapply Forall_impl; [done|]. simpl. lia.
      * apply Forall_singleton. simpl. lia.
    + rewrite fmap_app. apply NoDup_app. split; [done|]. split; [|apply NoDup_singleton].
      intros v Hv Hf. apply list_elem_of_singleton in Hf. simpl in Hf. subst v.
      apply list_elem_of_fmap in Hv as (y & Hv & Hy).
      apply (contains_false _ _ y) in Ec; [|done].
      unfold same in Ec. apply orb_false_iff in Ec as [_ Ec]. simpl in Ec.
      rewrite <- Hv in Ec.
      assert (Sentence.eqb y.2 y.2 = true) by by apply sentence_eqb_eq.
      congruence.
    + by apply prefix_app_r.
    + intros _ _. rewrite fmap_app. apply elem_of_app. right.
      by apply list_elem_of_singleton.
Qed.

Lemma inner_distinct fuel p j st r :
  wf_idents st → distinct st.1 → p ∈ st.1 →
  inner fuel p j st = Done r →
  wf_idents r ∧ distinct r.1 ∧ st.1 `prefix_of` r.1 ∧
  ∀ m q, (j ≤ m)%nat → r.1 !! m = Some q →
         p.1 ≠ q.1 → Sentence.cells p.2 ⊆ Sentence.cells q.2 →
         difference p.2 q.2 ∈ r.1.*2.
Proof.
  revert j st. induction fuel as [|fuel IH]; intros j st Hwf Hd Hp; [done|].
  simpl. destruct (st.1 !! j) as [q|] eqn:E.
  - destruct (pair_step_distinct p q st Hwf Hd Hp
                (list_elem_of_lookup_2 _ _ _ E))
      as (st1 & -> & Hwf1 & Hd1 & Hpre1 & Hder1).
    simpl. intros Hin.
    assert (Hp1 : p ∈ st1.1).
    { destruct Hpre1 as [k' ->]. apply elem_of_app. by left. }
    destruct (IH (S j) st1 Hwf1 Hd1 Hp1 Hin) as (Hwf' & Hd' & Hpre' & Hder').
    split; [done|]. split; [done|]. split; [by etrans|].
    intros m q' Hm Hq' Hne Hsub.
    destruct (decide (m = j)) as [->|Hmj]; [|apply (Hder' m q'); [lia|done..]].
    assert (q' = q) as ->.
    { assert (r.1 !! j = Some q); [|congruence].
      eapply prefix_lookup_Some; [done|]. by etrans. }
    specialize (Hder1 Hne Hsub).
    destruct Hpre' as [k' ->]. rewrite fmap_app. apply elem_of_app. by left.
  - intros [= <-]. split; [done|]. split; [done|]. split; [done|].
    intros m q Hm Hq. apply lookup_ge_None_1 in E.
    assert (st.1 !! m = None) by (apply lookup_ge_None_2; lia). congruence.
Qed.

Lemma outer_distinct fuel i st r :
  wf_idents st → distinct st.1 →
  outer fuel i st = Done r →
  wf_idents r ∧ distinct r.1 ∧ st.1 `prefix_of` r.1 ∧
  ∀ n p q, (i ≤ n)%nat → st.1 !! n = Some p → q ∈ st.1 →
           p.1 ≠ q.1 → Sentence.cells p.2 ⊆ Sentence.cells q.2 →
           difference p.2 q.2 ∈ r.1.*2.
Proof.
  revert i st. induction fuel as [|fuel IH]; intros i st Hwf Hd; [done|].
  simpl. destruct (st.1 !! i) as [p0|] eqn:E.
  - destruct (inner fuel p0 0 st) as [st1| |] eqn:Ein; simpl; [|done|done].
    intros Hout.
    destruct (inner_distinct fuel p0 0 st st1 Hwf Hd
                (list_elem_of_lookup_2 _ _ _ E) Ein)
      as (Hwf1 & Hd1 & Hpre1 & Hder1).
    destruct (IH (S i) st1 Hwf1 Hd1 Hout) as (Hwf' & Hd' & Hpre' & Hder').
    split; [done|]. split; [done|]. split; [by etrans|].
    intros n p q Hn Hp Hq Hne Hsub.
    destruct (decide (n = i)) as [->|Hni].
    + assert (p = p0) as -> by congruence.
      apply list_elem_of_lookup_1 in Hq as [m Hm].
      assert (difference p0.2 q.2 ∈ st1.1.*2).
      { apply (Hder1 m q); [lia| |done|done].
        by eapply prefix_lookup_Some. }
      destruct Hpre' as [k' ->]. rewrite fmap_app. apply elem_of_app. by left.
    + apply (Hder' n p q); [lia| | |done|done].
      * by eapply prefix_lookup_Some.
      * destruct Hpre1 as [k' ->]. apply elem_of_app. by left.
  - intros [= <-]. split; [done|]. split; [done|]. split; [done|].
    intros n p q Hn Hp. apply lookup_ge_None_1 in E.
    assert (st.1 !! n = None) by (apply lookup_ge_None_2; lia). congruence.
Qed.

(** On a knowledge base without duplicates the pass keeps every sentence
    in place and adds the difference of every subset pair it started
    with. *)
Lemma subsume_distinct fuel a a' :
  wf_idents (knowledge a, fresh a) → distinct (knowledge a) →
  subsume fuel a = Done a' →
  knowledge a `prefix_of` knowledge a' ∧ distinct (knowledge a') ∧
  ∀ p q, p ∈ knowledge a → q ∈ knowledge a →
         p.1 ≠ q.1 → Sentence.cells p.2 ⊆ Sentence.cells q.2 →
         difference p.2 q.2 ∈ (knowledge a').*2.
Proof.
  intros Hwf Hd. unfold subsume.
  destruct (outer fuel 0 _) as [r| |] eqn:E; simpl; [|done|done].
  intros [= <-]. simpl.
  destruct (outer_distinct fuel 0 _ r Hwf Hd E) as (_ & Hd' & Hpre & Hder).
  split; [done|]. split; [done|].
  intros p q Hp Hq. apply list_elem_of_lookup_1 in Hp as [n Hn].
  apply (Hder n p q); [lia|done..].
Qed.

End subsumption_without_duplicates.

(** * The closure sweep (step 4 of [add_knowledge]) *)

Section closure_facts.
Import MinesweeperAI.
Implicit Types (a : MinesweeperAI.t) (s : Sentence.t) (c : Cell)
               (l : list Cell) (X : gset Cell).

Lemma marked_safe_eq l s :
  marked_safe l s
  = Sentence.mk (Sentence.cells s ∖ list_to_set l) (Sentence.count s).
Proof.
  unfold marked_safe. revert s. induction l as [|c l IH]; intros s; simpl.
  - destruct s; simpl. f_equal. set_solver.
  - rewrite IH, sentence_mark_safe_cells, sentence_mark_safe_count.
    f_equal. set_solver.
Qed.

Lemma marked_mine_eq l s :
  NoDup l → (∀ c, c ∈ l → c ∈ Sentence.cells s) →
  marked_mine l s
  = Sentence.mk (Sentence.cells s ∖ list_to_set l)
                (Sentence.count s - Z.of_nat (length l)).
Proof.
  unfold marked_mine. revert s.
  induction l as [|c l IH]; intros s Hnd Hin; simpl.
  - destruct s; simpl. f_equal; [set_solver|lia].
  - apply NoDup_cons in Hnd as [Hc Hnd].
    rewrite IH; [|done|].
    + rewrite sentence_mark_mine_in by (apply Hin; left). simpl.
      f_equal; [set_solver|lia].
    + intros c' Hc'. rewrite sentence_mark_mine_cells.
      apply elem_of_difference. split; [apply Hin; by right|].
      rewrite elem_of_singleton. intros ->. done.
Qed.

Lemma marked_mine_cells l s :
  Sentence.cells (marked_mine l s) = Sentence.cells s ∖ list_to_set l.
Proof.
  unfold marked_mine. revert s. induction l as [|c l IH]; intros s; simpl.
  - set_solver.
  - rewrite IH, sentence_mark_mine_cells. set_solver.
Qed.

Lemma foldl_mark_safe l a :
  foldl (λ a c, mark_safe c a) a l
  = mk (height a) (width a) (moves_made a) (mines a)
       (list_to_set l ∪ safes a)
       (prod_map id (marked_safe l) <$> knowledge a) (fresh a).
Proof.
  revert a. induction l as [|c l IH]; intros a; simpl.
  - destruct a; simpl. f_equal; [set_solver|].
    rewrite <- (list_fmap_id knowledge0) at 1. apply list_fmap_ext.
    by intros _ [??] _.
  - rewrite IH. unfold mark_safe; simpl. f_equal; [set_solver|].
    rewrite <- list_fmap_compose. apply list_fmap_ext. by intros _ [??] _.
Qed.

Lemma foldl_mark_mine l a :
  foldl (λ a c, mark_mine c a) a l
  = mk (height a) (width a) (moves_made a)
       (list_to_set l ∪ mines a) (safes a)
       (prod_map id (marked_mine l) <$> knowledge a) (fresh a).
Proof.
  revert a. induction l as [|c l IH]; intros a; simpl.
  - destruct a; simpl. f_equal; [set_solver|].
    rewrite <- (list_fmap_id knowledge0) at 1. apply list_fmap_ext.
    by intros _ [??] _.
  - rewrite IH. unfold mark_mine; simpl. f_equal; [set_solver|].
    rewrite <- list_fmap_compose. apply list_fmap_ext. by intros _ [??] _.
Qed.

Lemma mark_safes_eq X a :
  mark_safes X a
  = mk (height a) (width a) (moves_made a) (mines a) (X ∪ safes a)
       (prod_map id (marked_safe (elements X)) <$> knowledge a) (fresh a).
Proof.
  unfold mark_safes. rewrite foldl_mark_safe. f_equal.
  by rewrite list_to_set_elements_L.
Qed.

Lemma mark_mines_eq X a :
  mark_mines X a
  = mk (height a) (width a) (moves_made a) (X ∪ mines a) (safes a)
       (prod_map id (marked_mine (elements X)) <$> knowledge a) (fresh a).
Proof.
  unfold mark_mines. rewrite foldl_mark_mine. f_equal.
  by rewrite list_to_set_elements_L.
Qed.

(** Python does not fix the order in which [for safe in safes.copy()]
    lists the set; the outcome is the same for every order. *)
Lemma marked_mine_any_order l s :
  NoDup l →
  marked_mine l s
  = Sentence.mk (Sentence.cells s ∖ list_to_set l)
                (Sentence.count s
                 - Z.of_nat (size (Sentence.cells s ∩ list_to_set l))).
Proof.
  unfold marked_mine. revert s.
  induction l as [|c l IH]; intros s Hnd; simpl.
  - destruct s; simpl. f_equal; [set_solver|].
    replace (cells ∩ ∅) with (∅ : gset Cell) by set_solver.
    rewrite size_empty. lia.
  - apply NoDup_cons in Hnd as [Hc Hnd]. rewrite IH by done.
    assert (Hc' : c ∉ (list_to_set l : gset Cell))
      by by rewrite elem_of_list_to_set.
    destruct (decide (c ∈ Sentence.cells s)) as [Hin|Hin].
    + rewrite sentence_mark_mine_in by done. simpl. f_equal; [set_solver|].
      replace (Sentence.cells s ∩ ({[c]} ∪ list_to_set l))
        with ({[c]} ∪ (Sentence.cells s ∖ {[c]}) ∩ list_to_set l) by set_solver.
      pose proof (size_union ({[c]} : gset Cell)
                    ((Sentence.cells s ∖ {[c]}) ∩ list_to_set l)) as Hu.
      rewrite Hu, size_singleton by set_solver. lia.
    + rewrite sentence_mark_mine_notin by done. f_equal; [set_solver|].
      do 3 f_equal. set_solver.
Qed.

Lemma mark_safes_any_order X a l :
  list_to_set l = X → foldl (λ a c, mark_safe c a) a l = mark_safes X a.
Proof.
  intros <-. rewrite mark_safes_eq, foldl_mark_safe. f_equal.
  apply list_fmap_ext. intros _ [i s] _. simpl. unfold prod_map; simpl. f_equal.
  rewrite !marked_safe_eq. by rewrite list_to_set_elements_L.
Qed.

Lemma mark_mines_any_order X a l :
  NoDup l → list_to_set l = X →
  foldl (λ a c, mark_mine c a) a l = mark_mines X a.
Proof.
  intros Hnd <-. rewrite mark_mines_eq, foldl_mark_mine. f_equal.
  apply list_fmap_ext. intros _ [i s] _. simpl. unfold prod_map; simpl. f_equal.
  rewrite !marked_mine_any_order by (done || apply NoDup_elements).
  by rewrite list_to_set_elements_L.
Qed.

End closure_facts.

Section sweep_facts.
Import MinesweeperAI.
Implicit Types (a : MinesweeperAI.t) (s : Sentence.t) (c : Cell) (i n : nat).

Lemma truthy_known_safes s :
  truthy (Sentence.known_safes s) = true →
  Sentence.known_safes s = Some (Sentence.cells s) ∧
  Sentence.count s = 0 ∧ Sentence.cells s ≠ ∅.
Proof.
  unfold Sentence.known_safes. case_bool_decide; simpl; [|done].
  rewrite negb_true_iff, bool_decide_eq_false. done.
Qed.

Lemma truthy_known_mines s :
  truthy (Sentence.known_mines s) = true →
  Sentence.known_mines s = Some (Sentence.cells s) ∧
  Sentence.count s = Sentence.len s ∧ Sentence.cells s ≠ ∅.
Proof.
  unfold Sentence.known_mines. case_bool_decide; simpl; [|done].
  rewrite negb_true_iff, bool_decide_eq_false. done.
Qed.

Lemma empty_sentence_falsy :
  truthy (Sentence.known_safes (Sentence.mk ∅ 0)) = false ∧
  truthy (Sentence.known_mines (Sentence.mk ∅ 0)) = false.
Proof. done. Qed.

(** Marking every cell of a sentence leaves it empty with count 0, when
    the marking was prompted by that sentence. *)
Lemma marked_safe_self s :
  Sentence.count s = 0 →
  marked_safe (elements (Sentence.cells s)) s = Sentence.mk ∅ 0.
Proof.
  intros H. rewrite marked_safe_eq, list_to_set_elements_L, H.
  f_equal. set_solver.
Qed.

Lemma marked_mine_self s :
  Sentence.count s = Sentence.len s →
  marked_mine (elements (Sentence.cells s)) s = Sentence.mk ∅ 0.
Proof.
  intros H. rewrite marked_mine_eq.
  - rewrite list_to_set_elements_L, H. unfold Sentence.len, size, set_size.
    simpl. f_equal; [set_solver|lia].
  - apply NoDup_elements.
  - intros c. by rewrite elem_of_elements.
Qed.

Lemma visit_eq i a : visit i a = visit_mines i (visit_safes i a).
Proof. reflexivity. Qed.

Lemma extends_refl a : extends a a.
Proof. by repeat split. Qed.

Lemma extends_trans a b d : extends a b → extends b d → extends a d.
Proof.
  unfold extends. intros (?&?&?&?&?&?&?) (?&?&?&?&?&?&?).
  repeat split; try congruence; set_solver.
Qed.

Lemma fmap_fst_prod_map (f : Sentence.t → Sentence.t)
    (k : list (ident * Sentence.t)) :
  (prod_map id f <$> k).*1 = k.*1.
Proof. rewrite <- list_fmap_compose. apply list_fmap_ext. by intros _ [??] _. Qed.

Lemma mark_safes_extends X a : extends a (mark_safes X a).
Proof.
  rewrite mark_safes_eq. unfold extends; simpl.
  rewrite fmap_fst_prod_map. repeat split; set_solver.
Qed.

Lemma mark_mines_extends X a : extends a (mark_mines X a).
Proof.
  rewrite mark_mines_eq. unfold extends; simpl.
  rewrite fmap_fst_prod_map. repeat split; set_solver.
Qed.

Lemma visit_extends i a : extends a (visit i a).
Proof.
  rewrite visit_eq. apply extends_trans with (visit_safes i a).
  - unfold visit_safes. repeat case_match;
      auto using extends_refl, mark_safes_extends.
  - unfold visit_mines. repeat case_match;
      auto using extends_refl, mark_mines_extends.
Qed.

Lemma sweep_extends n i a : extends a (sweep n i a).
Proof.
  revert i a. induction n as [|n IH]; intros i a; simpl.
  - apply extends_refl.
  - eapply extends_trans; [apply visit_extends | apply IH].
Qed.

Lemma closure_extends a : extends a (closure a).
Proof. apply sweep_extends. Qed.

(** Right after its visit a sentence yields nothing more. *)
Lemma visit_resolves i a id s :
  knowledge (visit i a) !! i = Some (id, s) →
  truthy (Sentence.known_safes s) = false ∧
  truthy (Sentence.known_mines s) = false.
Proof.
  rewrite visit_eq.
  assert (Hs : ∀ id' s', knowledge (visit_safes i a) !! i = Some (id', s') →
               truthy (Sentence.known_safes s') = false).
  { intros id' s'. unfold visit_safes.
    destruct (knowledge a !! i) as [[j t]|] eqn:E; [|by rewrite E].
    simpl. destruct (truthy (Sentence.known_safes t)) eqn:Et.
    - apply truthy_known_safes in Et as (-> & Hc & _). simpl.
      rewrite mark_safes_eq; simpl. rewrite list_lookup_fmap, E. simpl.
      rewrite marked_safe_self by done. by intros [= _ <-].
    - rewrite E. by intros [= _ <-]. }
  unfold visit_mines.
  destruct (knowledge (visit_safes i a) !! i) as [[j t]|] eqn:E; [|by rewrite E].
  simpl. destruct (truthy (Sentence.known_mines t)) eqn:Et.
  - apply truthy_known_mines in Et as (-> & Hc & _). simpl.
    rewrite mark_mines_eq; simpl. rewrite list_lookup_fmap, E. simpl.
    rewrite marked_mine_self by done. by intros [= _ <-].
  - rewrite E. intros [= _ <-]. split; [by eapply Hs|done].
Qed.

End sweep_facts.

(** * Object identities stay distinct *)

Section identity_facts.
Import MinesweeperAI.
Implicit Types (a : MinesweeperAI.t) (k : list (ident * Sentence.t))
               (st r : kstate) (x y p q : ident * Sentence.t).

Lemma list_remove_sublist x k k' :
  list_remove x k = Some k' → k' `sublist_of` k.
Proof.
  revert k'. induction k as [|y k IH]; intros k' H; [done|]. simpl in H.
  destruct (same y x); [injection H as <-; by apply sublist_cons|].
  destruct (list_remove x k) as [k''|]; [|done].
  injection H as <-. apply sublist_skip. by apply IH.
Qed.

Lemma list_remove_Forall (P : ident * Sentence.t → Prop) x k k' :
  list_remove x k = Some k' → Forall P k → Forall P k'.
Proof.
  revert k'. induction k as [|y k IH]; intros k' H HP; [done|]. simpl in H.
  apply Forall_cons in HP as [Hy HP].
  destruct (same y x); [by injection H as <-|].
  destruct (list_remove x k) as [k''|]; [|done].
  injection H as <-. apply Forall_cons. split; [done|]. by apply IH.
Qed.

Lemma wf_idents_snoc k f s :
  wf_idents (k, f) → wf_idents (k ++ [(f, s)], S f).
Proof.
  unfold wf_idents; simpl. intros [Hnd Hlt]. split.
  - rewrite fmap_app. apply NoDup_app. split; [done|]. split; [|apply NoDup_singleton].
    intros i Hi Hf. apply list_elem_of_singleton in Hf. simpl in Hf. subst i.
    apply list_elem_of_fmap in Hi as (y & -> & Hy).
    rewrite Forall_forall in Hlt. apply Hlt in Hy. lia.
  - apply Forall_app. split.
    + eapply Forall_impl; [done|]. simpl. lia.
    + apply Forall_singleton. simpl. lia.
Qed.

Lemma wf_idents_S k f : wf_idents (k, f) → wf_idents (k, S f).
Proof.
  unfold wf_idents; simpl. intros [Hnd Hlt]. split; [done|].
  eapply Forall_impl; [done|]. simpl. lia.
Qed.

Lemma pair_step_wf p q st r :
  wf_idents st → pair_step p q st = Done r → wf_idents r.
Proof.
  destruct st as [k f]. intros Hwf. unfold pair_step.
  repeat case_match; intros [= <-];
    auto using wf_idents_snoc, wf_idents_S.
  destruct Hwf as [Hnd Hlt]. split; simpl in *.
  - eapply sublist_NoDup; [done|]. apply fmap_sublist.
    by eapply list_remove_sublist.
  - by eapply list_remove_Forall.
Qed.

Lemma inner_wf fuel p j st r :
  wf_idents st → inner fuel p j st = Done r → wf_idents r.
Proof.
  revert j st. induction fuel as [|fuel IH]; intros j st Hwf; [done|]. simpl.
  destruct (st.1 !! j) as [q|]; [|by intros [= <-]].
  destruct (pair_step p q st) as [st1| |] eqn:E; simpl; [|done|done].
  apply IH. by eapply pair_step_wf.
Qed.

Lemma outer_wf fuel i st r :
  wf_idents st → outer fuel i st = Done r → wf_idents r.
Proof.
  revert i st. induction fuel as [|fuel IH]; intros i st Hwf; [done|]. simpl.
  destruct (st.1 !! i) as [p|]; [|by intros [= <-]].
  destruct (inner fuel p 0 st) as [st1| |] eqn:E; simpl; [|done|done].
  apply IH. by eapply inner_wf.
Qed.

Lemma extends_wf a a' :
  extends a a' → wf_idents (knowledge a, fresh a) →
  wf_idents (knowledge a', fresh a').
Proof.
  intros (_ & _ & _ & Hf & Hk & _) [Hnd Hlt]. unfold wf_idents; simpl in *.
  rewrite Hk, Hf. split; [done|].
  assert (H : Forall (λ i, (i < fresh a)%nat) (knowledge a).*1)
    by (apply Forall_fmap; exact Hlt).
  rewrite <- Hk in H. apply Forall_fmap in H. exact H.
Qed.

Lemma observe_wf cell count a :
  wf_idents (knowledge a, fresh a) →
  wf_idents (knowledge (observe cell count a), fresh (observe cell count a)).
Proof.
  intros [Hnd Hlt]. unfold observe, append; simpl. apply wf_idents_snoc.
  unfold wf_idents; simpl. rewrite fmap_fst_prod_map. split; [done|].
  apply Forall_fmap. eapply Forall_impl; [done|]. by intros [??].
Qed.

(** Every state reached from [init] by [add_knowledge] has distinct
    objects in its list. *)
Lemma add_knowledge_wf fuel cell count a a' :
  wf_idents (knowledge a, fresh a) →
  add_knowledge fuel cell count a = Done a' →
  wf_idents (knowledge a', fresh a').
Proof.
  intros Hwf. unfold add_knowledge, subsume.
  destruct (outer fuel 0 _) as [r| |] eqn:E; simpl; [|done|done].
  intros [= <-]. simpl. destruct r as [k f]. eapply outer_wf; [|done].
  eapply extends_wf; [apply closure_extends|]. by apply observe_wf.
Qed.

Lemma init_wf h w : wf_idents (knowledge (init h w), fresh (init h w)).
Proof. split; simpl; constructor. Qed.

End identity_facts.

Section single_pass.
Import MinesweeperAI.

Lemma sweep_snoc n i a : sweep (S n) i a = visit (i + n) (sweep n i a).
Proof.
  revert i a. induction n as [|n IH]; intros i a.
  - simpl. by rewrite Nat.add_0_r.
  - change (sweep (S (S n)) i a) with (sweep (S n) (S i) (visit i a)).
    rewrite IH. simpl. f_equal. lia.
Qed.

End single_pass.

(** What [make_safe_move] returns when no safe cell is left to play. *)
Lemma make_safe_move_empty (r : nat) (a : MinesweeperAI.t) :
  elements (MinesweeperAI.safes a ∖ MinesweeperAI.moves_made a) = [] →
  (MinesweeperAI.make_safe_move r a).1 = None.
Proof. unfold MinesweeperAI.make_safe_move. by intros ->. Qed.

(** C1 fails on the code: [add_knowledge] runs the closure sweep once and
    then the subsumption pass once, and neither again.  On the 3x2 board
    whose mine is at (1,1), after (0,0) and (1,0) are revealed with their
    true count 1, the second call returns with the sentence
    {(2,0),(2,1)} = 0, which its subsumption pass derived, in the
    knowledge: [known_safes] yields both cells, neither is a mine, neither
    is in [safes], and [make_safe_move] has no move to give, so that the
    next move is a random one, which can be the mine. *)
Theorem add_knowledge_stops_before_fixed_point :
  let b := Minesweeper.mk 3 2 {[ (1, 1) ]} in
  ∃ a', play 20 ((λ c, (c, Minesweeper.nearby_mines b c)) <$> [(0, 0); (1, 0)])
             (MinesweeperAI.init 3 2) = MinesweeperAI.Done a' ∧
        Sentence.mk {[ (2, 0); (2, 1) ]} 0 ∈ (MinesweeperAI.knowledge a').*2 ∧
        Sentence.known_safes (Sentence.mk {[ (2, 0); (2, 1) ]} 0)
        = Some {[ (2, 0); (2, 1) ]} ∧
        ((2, 0) ∉ MinesweeperAI.safes a') ∧ ((2, 1) ∉ MinesweeperAI.safes a') ∧
        ((2, 0) ∉ Minesweeper.mines b) ∧ ((2, 1) ∉ Minesweeper.mines b) ∧
        (∀ r, (MinesweeperAI.make_safe_move r a').1 = None) ∧
        (∃ r, (MinesweeperAI.make_random_move r a').1 = Some (1, 1)).
Proof.
  intros b.
  exists (returned (play 20 ((λ c, (c, Minesweeper.nearby_mines b c))
                              <$> [(0, 0); (1, 0)]) (MinesweeperAI.init 3 2))
                   (MinesweeperAI.init 3 2)).
  split; [vm_compute; reflexivity|].
  split; [by_computation|]. split; [reflexivity|].
  split; [by_computation|]. split; [by_computation|].
  split; [by_computation|]. split; [by_computation|].
  split.
  - intros r. apply make_safe_move_empty. vm_compute. reflexivity.
  - exists 1%nat. vm_compute. reflexivity.
Qed.

(** * The agent invariant *)

Section invariant_facts.
Import MinesweeperAI.
Implicit Types (a : MinesweeperAI.t) (c cell : Cell).






End invariant_facts.





(** When the list holds duplicates, the removals make the loops skip
    entries: here {A,B} = 1 is never [sentence1], and {C} = 0 is not
    derived although {A,B,C} = 1 is in the list. *)
Lemma removal_skips_a_pair :
  let AB := Sentence.mk {[ (0, 0); (0, 1) ]} 1 in
  let ABC := Sentence.mk {[ (0, 0); (0, 1); (0, 2) ]} 1 in
  let none := Sentence.mk ∅ 0 in
  MinesweeperAI.outer 20 0
    ([(0%nat, none); (1%nat, AB); (2%nat, none); (3%nat, ABC)], 4%nat)
  = MinesweeperAI.Done ([(1%nat, AB); (2%nat, none); (3%nat, ABC)], 7%nat).
Proof. vm_compute. reflexivity. Qed.

(** C6 fails on the code: on the 2x3 board whose mine is at (0,1), after
    (0,0), (0,2), (1,1) and (1,0) are revealed with their true count 1, the
    last call returns with two equal sentences in the knowledge.  Its
    closure sweep empties all eight sentences; the subsumption pass, which
    removes entries from the list it is iterating over, skips entries and
    stops with two of them left. *)
Theorem duplicates_survive :
  ∃ a', play 40 [((0, 0), 1); ((0, 2), 1); ((1, 1), 1); ((1, 0), 1)]
             (MinesweeperAI.init 2 3) = MinesweeperAI.Done a' ∧
        (MinesweeperAI.knowledge a').*2 = [Sentence.mk ∅ 0; Sentence.mk ∅ 0] ∧
        ¬ distinct (MinesweeperAI.knowledge a').
Proof.
  eexists. split; [vm_compute; reflexivity|]. split; [vm_compute; reflexivity|].
  unfold distinct. by_computation.
Qed.

(** * Counts that contradict each other *)

Section endless_subsumption.
Import MinesweeperAI.

Lemma contains_false_Forall x k :
  Forall (λ y, same y x = false) k → contains x k = false.
Proof.
  unfold contains. induction 1 as [|y k Hy _ IH]; [done|].
  simpl. by rewrite Hy, IH.
Qed.

Lemma chain_step j k f i :
  (1 ≤ j)%nat → chain j (k, f) → i ≠ 0%nat →
  k !! j = Some (i, Sentence.mk ∅ (2 - 2 * Z.of_nat j)) →
  ∃ r, pair_step two_of_none (i, Sentence.mk ∅ (2 - 2 * Z.of_nat j)) (k, f)
       = Done r ∧ chain (S j) r.
Proof.
  intros Hj (Hlen & _ & Hall) Hi Hq. simpl in *.
  unfold pair_step, two_of_none; simpl.
  rewrite bool_decide_eq_false_2 by done.
  assert (Sentence.eqb (Sentence.mk ∅ 2) (Sentence.mk ∅ (2 - 2 * Z.of_nat j))
          = false) as ->.
  { unfold Sentence.eqb; simpl. apply andb_false_iff. right.
    apply bool_decide_eq_false. lia. }
  rewrite bool_decide_eq_true_2 by done.
  assert (Hnew : difference (Sentence.mk ∅ 2) (Sentence.mk ∅ (2 - 2 * Z.of_nat j))
                 = Sentence.mk ∅ (2 - 2 * Z.of_nat (S j))).
  { unfold difference; simpl. f_equal; (lia || set_solver). }
  rewrite Hnew.
  rewrite contains_false_Forall.
  - eexists. split; [done|]. unfold chain; simpl. split; [|split].
    + rewrite length_app. simpl. lia.
    + exists f. split.
      * destruct k as [|y k]; [done|].
        apply Forall_cons in Hall as [(Hy & _) _]. simpl in Hy. lia.
      * rewrite lookup_app_r by lia. by rewrite Hlen, Nat.sub_diag.
    + apply Forall_app. split.
      * eapply Forall_impl; [done|]. simpl. intros y (? & ? & ?).
        split; [lia|]. split; [done|lia].
      * apply Forall_singleton. simpl. split; [lia|]. split; [done|lia].
  - eapply Forall_impl; [done|]. simpl. intros y (Hy & _ & Hc).
    unfold same; simpl. apply orb_false_iff. split.
    + apply bool_decide_eq_false. lia.
    + unfold Sentence.eqb; simpl. apply andb_false_iff. right.
      apply bool_decide_eq_false. lia.
Qed.

(** From such a list the inner loop never reaches the end of the list:
    every step appends one more sentence. *)
Lemma inner_runs_on fuel j st :
  (1 ≤ j)%nat → chain j st → inner fuel two_of_none j st = NoFuel.
Proof.
  revert j st. induction fuel as [|fuel IH]; intros j [k f] Hj Hch; [done|].
  destruct Hch as (Hlen & (i & Hi & Hq) & Hall). simpl in Hq.
  cbn [inner fst]. rewrite Hq.
  destruct (chain_step j k f i Hj) as (r & -> & Hr); [|done|done|].
  { split; [done|]. split; [by exists i|done]. }
  cbn [bind]. apply IH; [lia|done].
Qed.

Lemma subsumption_runs_on fuel :
  add_knowledge fuel (0, 1) 0 short_board = NoFuel.
Proof.
  unfold add_knowledge, subsume.
  assert (knowledge (closure (observe (0, 1) 0 short_board))
          = [two_of_none; (1%nat, Sentence.mk ∅ 0)]) as ->
    by (vm_compute; reflexivity).
  assert (fresh (closure (observe (0, 1) 0 short_board)) = 2%nat) as ->
    by (vm_compute; reflexivity).
  destruct fuel as [|fuel]; [done|]. cbn [outer fst lookup list_lookup].
  destruct fuel as [|fuel]; [done|]. cbn [inner fst lookup list_lookup].
  assert (pair_step two_of_none two_of_none
            ([two_of_none; (1%nat, Sentence.mk ∅ 0)], 2%nat)
          = Done ([two_of_none; (1%nat, Sentence.mk ∅ 0)], 2%nat)) as ->
    by (vm_compute; reflexivity).
  cbn [bind]. rewrite inner_runs_on; [done|lia|].
  split; [done|]. split; [by exists 1%nat|].
  repeat constructor; simpl; lia.
Qed.

End endless_subsumption.


(** * The subsumption pass returns on consistent knowledge *)

Section counting.

(** There are at most [2 ^ size U] different subsets of [U]. *)
Lemma bounded_subsets (U : gset Cell) (l : list (gset Cell)) :
  NoDup l → Forall (λ X, X ⊆ U) l → (length l ≤ 2 ^ size U)%nat.
Proof.
  revert l. induction U as [|x U Hx IH] using set_ind_L; intros l Hnd Hsub.
  - rewrite size_empty. simpl.
    destruct l as [|X [|Y l]]; simpl; [lia|lia|].
    apply NoDup_cons in Hnd as [Hnd _].
    apply Forall_cons in Hsub as [HX Hsub]. apply Forall_cons in Hsub as [HY _].
    destruct Hnd. assert (X = Y) as -> by set_solver. left.
  - rewrite size_union, size_singleton by set_solver.
    change (2 ^ (1 + size U))%nat with (2 * 2 ^ size U)%nat.
    pose proof (filter_app_complement (λ X : gset Cell, x ∈ X) l) as Hp.
    apply Permutation_length in Hp. rewrite length_app in Hp.
    assert (H2 : (length (filter (λ X : gset Cell, x ∉ X) l) ≤ 2 ^ size U)%nat).
    { apply IH; [by apply NoDup_filter|].
      apply Forall_forall. intros X HX. apply list_elem_of_filter in HX as [HxX HX].
      rewrite Forall_forall in Hsub. specialize (Hsub X HX). set_solver. }
    assert (H1 : (length (filter (λ X : gset Cell, x ∈ X) l) ≤ 2 ^ size U)%nat).
    { rewrite <- (length_fmap (λ X : gset Cell, X ∖ {[x]})). apply IH.
      - apply NoDup_fmap_2_strong; [|by apply NoDup_filter].
        intros X Y HX HY E.
        apply list_elem_of_filter in HX as [HxX _], HY as [HxY _].
        apply set_eq. intros z. destruct (decide (z = x)) as [->|Hz]; [done|].
        assert (z ∈ X ∖ {[x]} ↔ z ∈ Y ∖ {[x]}) by by rewrite E.
        set_solver.
      - apply Forall_fmap, Forall_forall. intros X HX. simpl.
        apply list_elem_of_filter in HX as [_ HX].
        rewrite Forall_forall in Hsub. specialize (Hsub X HX). set_solver. }
    lia.
Qed.

End counting.

Section consistent_knowledge.
Import MinesweeperAI.
Variables (M U : gset Cell).
Implicit Types (k : list (ident * Sentence.t)) (st r : kstate)
               (x y z p q : ident * Sentence.t) (s t : Sentence.t).

Lemma elem_of_cellsets X k :
  X ∈ cellsets k ↔ ∃ y, y ∈ k ∧ Sentence.cells y.2 = X.
Proof.
  unfold cellsets. rewrite elem_of_list_to_set, list_elem_of_fmap.
  split; intros (y & ? & ?); exists y; done.
Qed.

Lemma cellsets_bound k : within U k → (size (cellsets k) ≤ 2 ^ size U)%nat.
Proof.
  intros Hw. unfold size at 1, set_size; simpl.
  apply bounded_subsets; [apply NoDup_elements|].
  apply Forall_forall. intros X HX. apply elem_of_elements in HX.
  apply elem_of_cellsets in HX as (y & Hy & <-).
  unfold within in Hw. rewrite Forall_forall in Hw. by apply Hw.
Qed.

Lemma holds_eq s t : holds M s → holds M t → Sentence.cells s = Sentence.cells t → s = t.
Proof.
  unfold holds. destruct s, t; simpl. intros -> -> ->. done.
Qed.

Lemma holds_difference s t :
  Sentence.cells s ⊆ Sentence.cells t → holds M s → holds M t →
  holds M (difference s t).
Proof.
  unfold holds, difference; simpl. intros Hsub -> ->.
  replace ((Sentence.cells t ∖ Sentence.cells s) ∩ M)
    with ((Sentence.cells t ∩ M) ∖ (Sentence.cells s ∩ M)) by set_solver.
  pose proof (size_difference (Sentence.cells t ∩ M) (Sentence.cells s ∩ M))
    as Hd.
  rewrite Hd by set_solver.
  assert (size (Sentence.cells s ∩ M) ≤ size (Sentence.cells t ∩ M))%nat
    by (apply subseteq_size; set_solver).
  lia.
Qed.

(** What [list.remove] takes out is the first entry that matches. *)
Lemma list_remove_split x k k' :
  list_remove x k = Some k' →
  ∃ k1 y k2, k = k1 ++ y :: k2 ∧ k' = k1 ++ k2 ∧ same y x = true ∧
             Forall (λ z, same z x = false) k1.
Proof.
  revert k'. induction k as [|y k IH]; intros k' H; [done|]. simpl in H.
  destruct (same y x) eqn:E.
  - injection H as <-. by exists [], y, k.
  - destruct (list_remove x k) as [k''|]; [|done]. injection H as <-.
    destruct (IH k'' eq_refl) as (k1 & y0 & k2 & -> & -> & Hy0 & Hk1).
    exists (y :: k1), y0, k2. repeat split; [done|]. by constructor.
Qed.

Lemma alive_S p j k : alive p j k → alive p (S j) k.
Proof.
  intros [?|(m & y & ? & ? & ?)]; [by left|].
  right. exists m, y. split; [lia|done].
Qed.

Lemma alive_app p j k k' : alive p j k → alive p j (k ++ k').
Proof.
  intros [?|(m & y & ? & Hm & ?)].
  - left. apply elem_of_app. by left.
  - right. exists m, y. split; [done|]. split; [|done].
    by apply lookup_app_l_Some.
Qed.

End consistent_knowledge.

Section consistent_run.
Import MinesweeperAI.
Variables (M U : gset Cell).
Implicit Types (k : list (ident * Sentence.t)) (st r : kstate)
               (x y z p q : ident * Sentence.t).

Lemma wf_idents_NoDup k f : wf_idents (k, f) → NoDup k.
Proof. intros [H _]. by apply NoDup_fmap_1 in H. Qed.

Lemma same_value k f y q :
  wf_idents (k, f) → y ∈ k → q ∈ k → same y q = true → y.2 = q.2.
Proof.
  intros [Hnd _] Hy Hq Hs. unfold same in Hs.
  apply orb_true_iff in Hs as [Hs|Hs].
  - apply bool_decide_eq_true in Hs.
    by rewrite (NoDup_fmap_eq fst k y q).
  - by apply sentence_eqb_eq.
Qed.

Lemma same_of_value y q : y.2 = q.2 → same y q = true.
Proof.
  intros H. unfold same. apply orb_true_iff. right. by apply sentence_eqb_eq.
Qed.

(** Removing a duplicate of [p] met at index [j] leaves a sentence equal
    to [p] in the list, in front of index [j + 1] or as [p] itself. *)
Lemma remove_duplicate p q j k k' f :
  wf_idents (k, f) → alive p j k → k !! j = Some q →
  p.1 ≠ q.1 → p.2 = q.2 → list_remove q k = Some k' →
  alive p (S j) k' ∧ cellsets k' = cellsets k.
Proof.
  intros Hwf Hal Hj Hid Hval Hrm.
  pose proof (wf_idents_NoDup _ _ Hwf) as Hnd.
  pose proof (list_elem_of_lookup_2 _ _ _ Hj) as Hq.
  destruct (list_remove_split _ _ _ Hrm) as (k1 & y0 & k2 & -> & -> & Hy0 & Hk1).
  assert (Hy0v : y0.2 = q.2).
  { apply (same_value (k1 ++ y0 :: k2) f); [done| |done|done]. set_solver. }
  assert (Hle : (length k1 ≤ j)%nat).
  { destruct (decide (length k1 ≤ j)%nat) as [|Hlt]; [done|].
    rewrite lookup_app_l in Hj by lia. apply list_elem_of_lookup_2 in Hj.
    rewrite Forall_forall in Hk1. apply Hk1 in Hj. by rewrite same_refl in Hj. }
  assert (Hfront : ∀ m y, (m < length k1)%nat →
                     (k1 ++ y0 :: k2) !! m = Some y → y.2 = p.2 → False).
  { intros m y Hm Hy Hyv. rewrite lookup_app_l in Hy by done.
    apply list_elem_of_lookup_2 in Hy.
    rewrite Forall_forall in Hk1. apply Hk1 in Hy.
    rewrite same_of_value in Hy by congruence. done. }
  assert (Hkeep : alive p (S j) (k1 ++ k2) ∧
                  ∃ z, z ∈ k1 ++ k2 ∧ z.2 = q.2).
  { destruct (decide (length k1 = j)) as [<-|Hne].
    - assert (y0 = q) as ->.
      { rewrite list_lookup_middle in Hj by done. congruence. }
      assert (Hp : p ∈ k1 ++ k2).
      { destruct Hal as [Hp|(m & y & Hm & Hy & Hyv)].
        - apply elem_of_app in Hp as [Hp|Hp]; [set_solver|].
          apply elem_of_cons in Hp as [->|Hp]; [done|set_solver].
        - destruct (Hfront m y Hm Hy Hyv). }
      split; [by left|]. by exists p.
    - assert (Hq' : (k1 ++ k2) !! (j - 1)%nat = Some q).
      { rewrite lookup_app_r by lia. rewrite lookup_app_r in Hj by lia.
        replace (j - length k1)%nat with (S (j - 1 - length k1)) in Hj by lia.
        done. }
      split.
      + right. exists (j - 1)%nat, q. split; [lia|]. split; [done|congruence].
      + exists q. split; [by eapply list_elem_of_lookup_2|done]. }
  destruct Hkeep as (Hal' & z & Hz & Hzv). split; [done|].
  apply set_eq. intros X. rewrite !elem_of_cellsets. split.
  - intros (y & Hy & <-). exists y. split; [set_solver|done].
  - intros (y & Hy & <-).
    apply elem_of_app in Hy as [Hy|Hy]; [exists y; set_solver|].
    apply elem_of_cons in Hy as [->|Hy]; [|exists y; set_solver].
    exists z. split; [done|]. congruence.
Qed.

Lemma cellsets_snoc k x :
  Sentence.cells x.2 ∉ cellsets k →
  size (cellsets (k ++ [x])) = S (size (cellsets k)).
Proof.
  intros Hnew.
  assert (cellsets (k ++ [x]) = {[ Sentence.cells x.2 ]} ∪ cellsets k) as ->.
  { apply set_eq. intros X.
    rewrite elem_of_union, elem_of_singleton, !elem_of_cellsets. split.
    - intros (y & Hy & <-). apply elem_of_app in Hy as [Hy|Hy].
      + right. by exists y.
      + left. apply list_elem_of_singleton in Hy. by subst.
    - intros [->|(y & Hy & <-)].
      + exists x. split; [|done]. apply elem_of_app. right. left.
      + exists y. split; [|done]. apply elem_of_app. by left. }
  rewrite size_union by set_solver. by rewrite size_singleton.
Qed.

(** One step of the inner loop on consistent knowledge. *)
Lemma pair_step_consistent p q j st :
  wf_idents st → consistent M st.1 → within U st.1 →
  holds M p.2 → alive p j st.1 → st.1 !! j = Some q →
  ∃ r, pair_step p q st = Done r ∧
       wf_idents r ∧ consistent M r.1 ∧ within U r.1 ∧ alive p (S j) r.1 ∧
       ((cellsets r.1 = cellsets st.1 ∧ (length r.1 < length st.1)%nat) ∨
        (cellsets r.1 = cellsets st.1 ∧ r.1 = st.1) ∨
        (size (cellsets r.1) = S (size (cellsets st.1)) ∧
         length r.1 = S (length st.1))).
Proof.
  destruct st as [k f]. simpl. intros Hwf Hc Hw Hp Hal Hj.
  pose proof (list_elem_of_lookup_2 _ _ _ Hj) as Hq.
  unfold pair_step. case_bool_decide as Eid.
  { eexists. split; [done|]. simpl.
    split; [done|]. split; [done|]. split; [done|].
    split; [by apply alive_S|]. by right; left. }
  destruct (Sentence.eqb p.2 q.2) eqn:Eeq.
  { apply sentence_eqb_eq in Eeq.
    destruct (list_remove_is_Some q k Hq) as [k' Hk']. rewrite Hk'.
    destruct (remove_duplicate p q j k k' f Hwf Hal Hj Eid Eeq Hk') as [Hal' Hcs].
    eexists. split; [done|]. simpl. split; [|split; [|split; [|split]]].
    - destruct Hwf as [Hnd Hlt]. split; simpl in *.
      + eapply sublist_NoDup; [done|]. apply fmap_sublist.
        by eapply list_remove_sublist.
      + by eapply list_remove_Forall.
    - by eapply list_remove_Forall.
    - by eapply list_remove_Forall.
    - done.
    - left. split; [done|]. apply list_remove_length in Hk'. lia. }
  case_bool_decide as Esub.
  2:{ eexists. split; [done|]. simpl.
      split; [done|]. split; [done|]. split; [done|].
      split; [by apply alive_S|]. by right; left. }
  destruct (contains _ k) eqn:Ec.
  { eexists. split; [done|]. simpl.
    split; [by apply wf_idents_S|]. split; [done|]. split; [done|].
    split; [by apply alive_S|]. by right; left. }
  assert (Hq' : holds M q.2 ∧ Sentence.cells q.2 ⊆ U).
  { unfold consistent, within in *. rewrite Forall_forall in Hc, Hw. auto. }
  destruct Hq' as [Hqh Hqw].
  assert (Hnew : holds M (difference p.2 q.2)) by by apply holds_difference.
  eexists. split; [done|]. simpl. split; [|split; [|split; [|split]]].
  - by apply wf_idents_snoc.
  - apply Forall_app. split; [done|]. by apply Forall_singleton.
  - apply Forall_app. split; [done|]. apply Forall_singleton. simpl. set_solver.
  - by apply alive_app, alive_S.
  - right; right. split; [|rewrite length_app; simpl; lia].
    apply cellsets_snoc. simpl. intros Hin.
    apply elem_of_cellsets in Hin as (y & Hy & Hycells).
    apply (contains_false _ _ y) in Ec; [|done].
    rewrite same_of_value in Ec; [done|]. simpl.
    apply (holds_eq M); [|done|done].
    unfold consistent in Hc. rewrite Forall_forall in Hc. by apply Hc.
Qed.

End consistent_run.

Section consistent_termination.
Import MinesweeperAI.
Variables (M U : gset Cell).
Implicit Types (k : list (ident * Sentence.t)) (st r : kstate)
               (p q : ident * Sentence.t).

Lemma inner_returns fuel p j st :
  wf_idents st → consistent M st.1 → within U st.1 →
  holds M p.2 → alive p j st.1 →
  (2 ^ size U - size (cellsets st.1) + (length st.1 - j) < fuel)%nat →
  ∃ r, inner fuel p j st = Done r ∧
       wf_idents r ∧ consistent M r.1 ∧ within U r.1 ∧
       (size (cellsets st.1) ≤ size (cellsets r.1))%nat ∧
       (room U r.1 ≤ room U st.1)%nat.
Proof.
  unfold room.
  revert j st. induction fuel as [|fuel IH]; intros j st Hwf Hc Hw Hp Hal Hfuel;
    [lia|].
  simpl. destruct (st.1 !! j) as [q|] eqn:Hj.
  - pose proof (lookup_lt_Some _ _ _ Hj) as Hlt.
    destruct (pair_step_consistent M U p q j st Hwf Hc Hw Hp Hal Hj)
      as (r1 & -> & Hwf1 & Hc1 & Hw1 & Hal1 & Hcase).
    simpl. pose proof (cellsets_bound U _ Hw1) as Hb1.
    destruct (IH (S j) r1 Hwf1 Hc1 Hw1 Hp Hal1) as (r & Hr & Hwf' & Hc' & Hw' & Hs & Hroom).
    { destruct Hcase as [[Hcs ?]|[[Hcs Hk]|[Hcs Hk]]].
      - rewrite Hcs in *. lia.
      - rewrite Hcs, Hk in *. lia.
      - rewrite Hcs, Hk in *. lia. }
    exists r. split; [done|]. split; [done|]. split; [done|]. split; [done|].
    destruct Hcase as [[Hcs ?]|[[Hcs Hk]|[Hcs Hk]]].
    + rewrite Hcs in *. lia.
    + rewrite Hcs, Hk in *. lia.
    + rewrite Hcs, Hk in *. lia.
  - exists st. split; [done|]. split; [done|]. split; [done|]. split; [done|]. lia.
Qed.

Lemma outer_returns fuel i st :
  wf_idents st → consistent M st.1 → within U st.1 →
  (room U st.1 + (2 ^ size U - size (cellsets st.1) + (length st.1 - i)) + 1
   < fuel)%nat →
  ∃ r, outer fuel i st = Done r ∧
       wf_idents r ∧ consistent M r.1 ∧ within U r.1.
Proof.
  unfold room.
  revert i st. induction fuel as [|fuel IH]; intros i st Hwf Hc Hw Hfuel; [lia|].
  simpl. destruct (st.1 !! i) as [p|] eqn:Hi; [|by exists st].
  pose proof (lookup_lt_Some _ _ _ Hi) as Hlt.
  pose proof (list_elem_of_lookup_2 _ _ _ Hi) as Hp.
  assert (Hph : holds M p.2).
  { unfold consistent in Hc. rewrite Forall_forall in Hc. by apply Hc. }
  destruct (inner_returns fuel p 0 st Hwf Hc Hw Hph (or_introl Hp))
    as (r1 & -> & Hwf1 & Hc1 & Hw1 & Hs & Hroom); [lia|].
  simpl. unfold room in Hroom. apply IH; [done..|]. lia.
Qed.

(** The subsumption pass returns when the sentences are true of some
    board; [2 * (2 ^ size U + len(knowledge)) + 2] units of fuel are
    enough. *)
Lemma subsume_returns fuel a :
  wf_idents (knowledge a, fresh a) →
  consistent M (knowledge a) → within U (knowledge a) →
  (2 * (2 ^ size U + length (knowledge a)) + 2 ≤ fuel)%nat →
  ∃ a', subsume fuel a = Done a' ∧ consistent M (knowledge a').
Proof.
  intros Hwf Hc Hw Hfuel. unfold subsume.
  destruct (outer_returns fuel 0 (knowledge a, fresh a) Hwf Hc Hw)
    as (r & -> & _ & Hc' & _).
  { unfold room. simpl. lia. }
  simpl. by eexists.
Qed.

End consistent_termination.

Section returns_on_consistent_knowledge.
Import MinesweeperAI.

Lemma within_cells_of (k : list (ident * Sentence.t)) : within (cells_of k) k.
Proof.
  apply Forall_forall. intros y Hy c Hc. unfold cells_of.
  apply elem_of_union_list. exists (Sentence.cells y.2). split; [|done].
  apply list_elem_of_fmap. by exists y.
Qed.

(** [add_knowledge] returns when, after its closure sweep, the sentences
    are true of some board. *)
Lemma add_knowledge_returns (fuel : nat) (cell : Cell) (count : Z)
    (a : MinesweeperAI.t) (M : gset Cell) :
  wf_idents (knowledge a, fresh a) →
  consistent M (knowledge (closure (observe cell count a))) →
  (enough_fuel (knowledge (closure (observe cell count a))) ≤ fuel)%nat →
  ∃ a', add_knowledge fuel cell count a = Done a'.
Proof.
  intros Hwf Hc Hfuel. unfold add_knowledge.
  destruct (subsume_returns M (cells_of (knowledge (closure (observe cell count a))))
              fuel (closure (observe cell count a))) as (a' & Ha' & _);
    [|done|apply within_cells_of|done|by exists a'].
  eapply extends_wf; [apply closure_extends|]. by apply observe_wf.
Qed.

End returns_on_consistent_knowledge.

(** * Truthful observations keep the agent right *)

Section soundness.
Import MinesweeperAI.
Implicit Types (a : MinesweeperAI.t) (s : Sentence.t) (c cell : Cell)
               (M X : gset Cell) (l : list Cell).

Lemma holds_mark_safe M c s :
  c ∉ M → holds M s → holds M (Sentence.mark_safe c s).
Proof.
  unfold holds. intros Hc H.
  rewrite sentence_mark_safe_count, sentence_mark_safe_cells, H.
  do 2 f_equal. set_solver.
Qed.

Lemma holds_mark_mine M c s :
  c ∈ M → holds M s → holds M (Sentence.mark_mine c s).
Proof.
  unfold holds. intros Hc H.
  destruct (decide (c ∈ Sentence.cells s)) as [Hin|Hin].
  - rewrite sentence_mark_mine_in by done. simpl. rewrite H.
    replace ((Sentence.cells s ∖ {[c]}) ∩ M)
      with ((Sentence.cells s ∩ M) ∖ {[c]}) by set_solver.
    rewrite size_remove_in by set_solver. done.
  - by rewrite sentence_mark_mine_notin.
Qed.

Lemma sound_mark_safe M c a : c ∉ M → sound M a → sound M (mark_safe c a).
Proof.
  intros Hc (Hm & Hs & Hp & Hk). unfold sound, mark_safe; simpl.
  split; [done|]. split; [set_solver|]. split; [done|].
  apply Forall_fmap. eapply Forall_impl; [exact Hk|].
  intros [i s] H. simpl in *. by apply holds_mark_safe.
Qed.

Lemma sound_mark_mine M c a : c ∈ M → sound M a → sound M (mark_mine c a).
Proof.
  intros Hc (Hm & Hs & Hp & Hk). unfold sound, mark_mine; simpl.
  split; [set_solver|]. split; [done|]. split; [done|].
  apply Forall_fmap. eapply Forall_impl; [exact Hk|].
  intros [i s] H. simpl in *. by apply holds_mark_mine.
Qed.

Lemma sound_mark_safes M X a : X ## M → sound M a → sound M (mark_safes X a).
Proof.
  intros HX. unfold mark_safes.
  assert (H : Forall (λ c, c ∉ M) (elements X)).
  { apply Forall_forall. intros c Hc. apply elem_of_elements in Hc. set_solver. }
  revert a. induction H as [|c l Hc _ IH]; intros a Ha; [done|].
  simpl. by apply IH, sound_mark_safe.
Qed.

Lemma sound_mark_mines M X a : X ⊆ M → sound M a → sound M (mark_mines X a).
Proof.
  intros HX. unfold mark_mines.
  assert (H : Forall (λ c, c ∈ M) (elements X)).
  { apply Forall_forall. intros c Hc. apply elem_of_elements in Hc. set_solver. }
  revert a. induction H as [|c l Hc _ IH]; intros a Ha; [done|].
  simpl. by apply IH, sound_mark_mine.
Qed.

(** A true sentence with count 0 has no mine; one whose count is its
    number of cells has only mines. *)
Lemma holds_zero M s : holds M s → Sentence.count s = 0 → Sentence.cells s ## M.
Proof.
  unfold holds. intros H H0. rewrite H0 in H.
  assert (E : size (Sentence.cells s ∩ M) = 0%nat) by lia.
  apply size_empty_iff in E. set_solver.
Qed.

Lemma holds_full M s :
  holds M s → Sentence.count s = Sentence.len s → Sentence.cells s ⊆ M.
Proof.
  unfold holds, Sentence.len. intros H Hf. rewrite Hf in H.
  assert (E : Sentence.cells s ∩ M = Sentence.cells s).
  { apply set_subseteq_size_eq; [set_solver|lia]. }
  set_solver.
Qed.

Lemma sound_lookup M a i id s :
  sound M a → knowledge a !! i = Some (id, s) → holds M s.
Proof.
  intros (_ & _ & _ & Hk) Hi. unfold consistent in Hk.
  rewrite Forall_forall in Hk.
  by apply (Hk (id, s)), list_elem_of_lookup_2 with i.
Qed.

Lemma sound_visit M i a : sound M a → sound M (visit i a).
Proof.
  intros Ha. rewrite visit_eq.
  assert (Ha1 : sound M (visit_safes i a)).
  { unfold visit_safes. destruct (knowledge a !! i) as [[id s]|] eqn:E; [|done].
    simpl. destruct (truthy (Sentence.known_safes s)) eqn:Et; [|done].
    apply truthy_known_safes in Et as (-> & H0 & _). simpl.
    apply sound_mark_safes; [|done].
    eapply holds_zero; [by eapply sound_lookup|done]. }
  unfold visit_mines.
  destruct (knowledge (visit_safes i a) !! i) as [[id s]|] eqn:E; [|done].
  simpl. destruct (truthy (Sentence.known_mines s)) eqn:Et; [|done].
  apply truthy_known_mines in Et as (-> & Hf & _). simpl.
  apply sound_mark_mines; [|done].
  eapply holds_full; [by eapply sound_lookup|done].
Qed.

Lemma sound_closure M a : sound M a → sound M (closure a).
Proof.
  unfold closure. generalize (length (knowledge a)) 0%nat.
  intros n. revert a. induction n as [|n IH]; intros a i Ha; [done|].
  simpl. by apply IH, sound_visit.
Qed.

End soundness.

Section truthful_observation.
Import MinesweeperAI.
Implicit Types (a : MinesweeperAI.t) (b : Minesweeper.t) (c cell : Cell)
               (l : list Cell).

Lemma NoDup_window cell : NoDup (window cell).
Proof.
  unfold window. destruct cell as [i j]. simpl.
  repeat (apply NoDup_cons; split;
          [rewrite ?elem_of_cons, elem_of_nil; intros H;
           repeat (destruct H as [H|H]); try done;
           injection H; lia|]).
  apply NoDup_nil_2.
Qed.

Lemma scan_eq a cell l (acc : gset Cell * Z) :
  foldl (scan_step a cell) acc l
  = (list_to_set
       (filter (λ c, c ≠ cell ∧ in_bounds a c = true ∧
                     (c ∉ moves_made a) ∧ (c ∉ mines a)) l) ∪ acc.1,
     acc.2 - Z.of_nat
               (length (filter (λ c, c ≠ cell ∧ in_bounds a c = true ∧
                                     c ∈ mines a) l))).
Proof.
  revert acc. induction l as [|c l IH]; intros [X n]; simpl.
  - f_equal; [set_solver|lia].
  - rewrite IH. clear IH. unfold scan_step. rewrite !filter_cons.
    generalize (filter (λ c, c ≠ cell ∧ in_bounds a c = true ∧
                             (c ∉ moves_made a) ∧ (c ∉ mines a)) l).
    generalize (filter (λ c, c ≠ cell ∧ in_bounds a c = true ∧
                             c ∈ mines a) l).
    intros l2 l1. simpl.
    case_bool_decide as Hc.
    { repeat case_decide; first [done | exfalso; tauto]. }
    destruct (in_bounds a c) eqn:Eb.
    2:{ repeat case_decide; first [done | exfalso; intuition congruence]. }
    destruct (bool_decide (c ∉ moves_made a) && bool_decide (c ∉ mines a)) eqn:E.
    { apply andb_true_iff in E as [E1 E2].
      apply bool_decide_eq_true in E1, E2.
      repeat case_decide; try (exfalso; tauto).
      simpl. f_equal. set_solver. }
    assert (Hno : ¬ ((c ∉ moves_made a) ∧ (c ∉ mines a))).
    { intros [E1 E2]. apply andb_false_iff in E as [E|E];
        apply bool_decide_eq_false in E; done. }
    destruct (decide (c ∈ mines a)) as [Hm|Hm].
    + rewrite (bool_decide_eq_true_2 (c ∈ mines a)) by done.
      repeat case_decide; try (exfalso; tauto); simpl; f_equal; lia.
    + rewrite (bool_decide_eq_false_2 (c ∈ mines a)) by done.
      repeat case_decide; try (exfalso; tauto); done.
Qed.

Lemma nearby_eq b cell l (n : Z) :
  foldl (Minesweeper.count_step b cell) n l
  = n + Z.of_nat
          (length (filter (λ c, c ≠ cell ∧
                                (0 ≤ c.1 < Minesweeper.height b ∧
                                 0 ≤ c.2 < Minesweeper.width b) ∧
                                c ∈ Minesweeper.mines b) l)).
Proof.
  revert n. induction l as [|c l IH]; intros n; simpl; [lia|].
  rewrite IH. clear IH. unfold Minesweeper.count_step. rewrite !filter_cons.
  generalize (filter (λ c, c ≠ cell ∧
                           (0 ≤ c.1 < Minesweeper.height b ∧
                            0 ≤ c.2 < Minesweeper.width b) ∧
                           c ∈ Minesweeper.mines b) l).
  intros l1.
  case_bool_decide as Hc.
  { case_decide; first [done | exfalso; tauto]. }
  destruct (bool_decide (0 ≤ c.1 < Minesweeper.height b)
            && bool_decide (0 ≤ c.2 < Minesweeper.width b)) eqn:E.
  - apply andb_true_iff in E as [E1 E2]. apply bool_decide_eq_true in E1, E2.
    destruct (decide (c ∈ Minesweeper.mines b)) as [Hm|Hm].
    + rewrite (bool_decide_eq_true_2 (c ∈ Minesweeper.mines b)) by done.
      case_decide; try (exfalso; tauto); simpl; lia.
    + rewrite (bool_decide_eq_false_2 (c ∈ Minesweeper.mines b)) by done.
      case_decide; try (exfalso; tauto); done.
  - destruct (decide _) as [H|H]; [exfalso|done].
    destruct H as (_ & [E1 E2] & _).
    apply andb_false_iff in E as [E|E]; apply bool_decide_eq_false in E; done.
Qed.

Lemma length_filter_split (P Q R : Cell → Prop)
    `{!∀ c, Decision (P c)} `{!∀ c, Decision (Q c)} `{!∀ c, Decision (R c)} l :
  (∀ c, c ∈ l → (Q c ↔ R c ∨ P c)) → (∀ c, c ∈ l → ¬ (R c ∧ P c)) →
  length (filter Q l) = (length (filter R l) + length (filter P l))%nat.
Proof.
  induction l as [|c l IH]; intros Hiff Hex; [done|].
  assert (IH' : length (filter Q l)
                = (length (filter R l) + length (filter P l))%nat).
  { apply IH; intros c' Hin; [apply Hiff|apply Hex]; by right. }
  pose proof (Hiff c (list_elem_of_here _ _)) as Hc.
  pose proof (Hex c (list_elem_of_here _ _)) as Hc'.
  rewrite !filter_cons.
  destruct (decide (Q c)), (decide (R c)), (decide (P c)); simpl;
    rewrite ?IH'; try lia; exfalso; tauto.
Qed.

(** The sentence built from a truthful count is true of the board. *)
Lemma scan_holds a b cell :
  height a = Minesweeper.height b → width a = Minesweeper.width b →
  mines a ⊆ Minesweeper.mines b → moves_made a ## Minesweeper.mines b →
  let r := scan a cell (Minesweeper.nearby_mines b cell) in
  holds (Minesweeper.mines b) (Sentence.mk r.1 r.2).
Proof.
  intros Hh Hw Hm Hp. unfold scan, Minesweeper.nearby_mines, holds.
  rewrite scan_eq, nearby_eq. simpl.
  set (W := window cell). set (M := Minesweeper.mines b).
  rewrite (length_filter_split
             (λ c, c ≠ cell ∧ in_bounds a c = true ∧ c ∈ mines a) _
             (λ c, (c ≠ cell ∧ in_bounds a c = true ∧
                    (c ∉ moves_made a) ∧ (c ∉ mines a)) ∧ c ∈ M) W).
  - assert (E : (list_to_set
                   (filter (λ c, c ≠ cell ∧ in_bounds a c = true ∧
                                 (c ∉ moves_made a) ∧ (c ∉ mines a)) W) ∪ ∅) ∩ M
                = list_to_set
                    (filter (λ c, (c ≠ cell ∧ in_bounds a c = true ∧
                                   (c ∉ moves_made a) ∧ (c ∉ mines a)) ∧ c ∈ M) W)).
    { apply set_eq. intros c.
      rewrite elem_of_intersection, elem_of_union, !elem_of_list_to_set,
        !list_elem_of_filter. set_solver. }
    rewrite E, size_list_to_set by apply NoDup_filter, NoDup_window. lia.
  - intros c _. unfold in_bounds. rewrite andb_true_iff, !bool_decide_eq_true.
    rewrite Hh, Hw. split.
    + intros (Hc & Hb & HM).
      destruct (decide (c ∈ mines a)); [right; done|left].
      split; [|done]. split; [done|]. split; [done|]. split; [set_solver|done].
    + intros [((Hc & Hb & _) & HM)|(Hc & Hb & HM)]; [done|].
      split; [done|]. split; [done|]. by apply Hm.
  - intros c _ [((_ & _ & _ & Hn) & _) (_ & _ & Hy)]. done.
Qed.

(** Steps 1 to 3 of [add_knowledge], for a cell that is not a mine and the
    count the board gives for it. *)
Lemma sound_observe a b cell :
  height a = Minesweeper.height b → width a = Minesweeper.width b →
  cell ∉ Minesweeper.mines b →
  sound (Minesweeper.mines b) a →
  sound (Minesweeper.mines b) (observe cell (Minesweeper.nearby_mines b cell) a).
Proof.
  intros Hh Hw Hc Ha.
  assert (Ha1 : sound (Minesweeper.mines b) (mark_safe cell (add_move cell a))).
  { apply sound_mark_safe; [done|].
    destruct Ha as (Hm & Hs & Hp & Hk). unfold sound, add_move; simpl.
    split; [done|]. split; [done|]. split; [set_solver|done]. }
  unfold observe.
  set (a1 := mark_safe cell (add_move cell a)) in *.
  destruct Ha1 as (Hm & Hs & Hp & Hk).
  unfold sound, append; simpl. split; [done|]. split; [done|]. split; [done|].
  apply Forall_app. split; [done|]. apply Forall_singleton. simpl.
  by apply (scan_holds a1 b cell).
Qed.

(** A truthful observation: [add_knowledge] returns, and what the agent
    believes is still true of the board.  In particular no mine is ever in
    [safes]. *)
Lemma add_knowledge_sound fuel a b cell :
  height a = Minesweeper.height b → width a = Minesweeper.width b →
  cell ∉ Minesweeper.mines b →
  wf_idents (knowledge a, fresh a) →
  sound (Minesweeper.mines b) a →
  let count := Minesweeper.nearby_mines b cell in
  (enough_fuel (knowledge (closure (observe cell count a))) ≤ fuel)%nat →
  ∃ a', add_knowledge fuel cell count a = Done a' ∧
        sound (Minesweeper.mines b) a'.
Proof.
  intros Hh Hw Hc Hwf Ha count Hfuel.
  assert (Ha1 : sound (Minesweeper.mines b) (closure (observe cell count a))).
  { by apply sound_closure, sound_observe. }
  destruct Ha1 as (Hm & Hs & Hp & Hk).
  unfold add_knowledge.
  destruct (subsume_returns (Minesweeper.mines b)
              (cells_of (knowledge (closure (observe cell count a))))
              fuel (closure (observe cell count a))) as (a' & Ha' & Hk');
    [|done|apply within_cells_of|done|].
  { eapply extends_wf; [apply closure_extends|]. by apply observe_wf. }
  exists a'. split; [done|].
  apply subsume_frame in Ha' as (E1 & E2 & E3 & _).
  unfold sound. rewrite E1, E2, E3. done.
Qed.

Lemma add_knowledge_fuel_mono fuel fuel' cell a a' (count : Z) :
  (fuel ≤ fuel')%nat →
  add_knowledge fuel cell count a = Done a' →
  add_knowledge fuel' cell count a = Done a'.
Proof.
  intros Hle. unfold add_knowledge, subsume.
  destruct (outer fuel 0 _) as [r| |] eqn:E; simpl; [|done|done].
  intros [= <-]. by rewrite (outer_fuel_mono fuel fuel' _ _ r Hle E).
Qed.

Lemma add_knowledge_dims fuel cell a a' (count : Z) :
  add_knowledge fuel cell count a = Done a' →
  height a' = height a ∧ width a' = width a.
Proof.
  intros H. apply subsume_frame in H as (_ & _ & _ & -> & ->).
  destruct (closure_extends (observe cell count a)) as (-> & -> & _). done.
Qed.

Lemma sound_init M h w : sound M (init h w).
Proof. unfold sound, init; simpl. repeat split; try set_solver. constructor. Qed.

(** A whole game: whatever cells without a mine are revealed, in whatever
    order, every call of [add_knowledge] returns and the agent's beliefs
    stay true of the board. *)
Lemma truthful_play b (cells : list Cell) :
  Forall (λ c, c ∉ Minesweeper.mines b) cells →
  ∃ fuel0 a,
    sound (Minesweeper.mines b) a ∧ wf_idents (knowledge a, fresh a) ∧
    height a = Minesweeper.height b ∧ width a = Minesweeper.width b ∧
    ∀ fuel, (fuel0 ≤ fuel)%nat →
      play fuel ((λ c, (c, Minesweeper.nearby_mines b c)) <$> cells)
           (init (Minesweeper.height b) (Minesweeper.width b))
      = Done a.
Proof.
  induction cells as [|c cells IH] using rev_ind; intros Hcells.
  - exists 0%nat, (init (Minesweeper.height b) (Minesweeper.width b)).
    split; [apply sound_init|]. split; [apply init_wf|]. done.
  - apply Forall_app in Hcells as [Hcells Hc]. rewrite Forall_singleton in Hc.
    destruct (IH Hcells) as (fuel0 & a & Ha & Hwf & Hh & Hw & Hplay).
    set (count := Minesweeper.nearby_mines b c).
    set (fuel1 := (fuel0 `max` enough_fuel (knowledge (closure (observe c count a))))%nat).
    destruct (add_knowledge_sound fuel1 a b c Hh Hw Hc Hwf Ha) as (a' & Hrun & Ha');
      [unfold fuel1; fold count; lia|].
    exists fuel1, a'. split; [done|].
    split; [by eapply add_knowledge_wf|].
    destruct (add_knowledge_dims _ _ _ _ _ Hrun) as [-> ->].
    split; [done|]. split; [done|].
    intros fuel Hfuel. unfold play in *. rewrite fmap_app, foldl_app. simpl.
    rewrite Hplay by (unfold fuel1 in Hfuel; lia). simpl.
    by apply (add_knowledge_fuel_mono fuel1).
Qed.

(** A move that [make_safe_move] proposes is not a mine, as long as what
    the agent believes is true of the board. *)
Lemma safe_move_is_safe (r : nat) a b c :
  sound (Minesweeper.mines b) a →
  (make_safe_move r a).1 = Some c → c ∉ Minesweeper.mines b.
Proof.
  intros (_ & Hs & _) Hc. unfold make_safe_move in Hc.
  destruct (elements _) as [|x xs] eqn:E; [done|]. simpl in Hc.
  injection Hc as <-.
  assert (H : choice r x xs ∈ safes a ∖ moves_made a).
  { apply elem_of_elements. rewrite E. apply choice_elem_of. }
  set_solver.
Qed.

End truthful_observation.

(** C2 fails on the code: on the 2x4 board whose mine is at (0,1), after
    (0,0), (0,3), (0,2) and (1,3) are revealed with their true counts, the
    subsumption pass of the fourth call starts with
    {(0,1),(1,0),(1,1)} = 1 and {(0,1),(1,1)} = 1 in the knowledge and ends
    without {(1,0)} = 0.  The list is then {(0,1),(1,0),(1,1)} = 1, {} = 0,
    {(0,1),(1,1)} = 1, {} = 0; while the first {} = 0 is [sentence1] the
    second one is found equal and [remove] drops the first, so that the
    outer loop goes on with the second {} = 0 and {(0,1),(1,1)} = 1 is
    never [sentence1].  (1,0), which is no mine, is not in [safes]
    either. *)
Theorem subsumption_misses_the_remainder :
  let b := Minesweeper.mk 2 4 {[ (0, 1) ]} in
  let count := Minesweeper.nearby_mines b in
  ∃ a a',
    play 40 ((λ c, (c, count c)) <$> [(0, 0); (0, 3); (0, 2)])
         (MinesweeperAI.init 2 4) = MinesweeperAI.Done a ∧
    (let a1 := MinesweeperAI.closure
                 (MinesweeperAI.observe (1, 3) (count (1, 3)) a) in
     (MinesweeperAI.knowledge a1).*2
     = [Sentence.mk {[ (0, 1); (1, 0); (1, 1) ]} 1; Sentence.mk ∅ 0;
        Sentence.mk {[ (0, 1); (1, 1) ]} 1; Sentence.mk ∅ 0]) ∧
    MinesweeperAI.add_knowledge 40 (1, 3) (count (1, 3)) a
    = MinesweeperAI.Done a' ∧
    (MinesweeperAI.knowledge a').*2
    = [Sentence.mk {[ (0, 1); (1, 0); (1, 1) ]} 1;
       Sentence.mk {[ (0, 1); (1, 1) ]} 1; Sentence.mk ∅ 0] ∧
    (Sentence.mk {[ (1, 0) ]} 0 ∉ (MinesweeperAI.knowledge a').*2) ∧
    ((1, 0) ∉ MinesweeperAI.safes a') ∧ ((1, 0) ∉ Minesweeper.mines b).
Proof.
  intros b count.
  set (a := returned (play 40 ((λ c, (c, count c)) <$> [(0, 0); (0, 3); (0, 2)])
                           (MinesweeperAI.init 2 4)) (MinesweeperAI.init 2 4)).
  exists a, (returned (MinesweeperAI.add_knowledge 40 (1, 3) (count (1, 3)) a) a).
  split; [vm_compute; reflexivity|].
  split; [vm_compute; reflexivity|].
  split; [vm_compute; reflexivity|].
  split; [vm_compute; reflexivity|].
  split; [by_computation|]. split; by_computation.
Qed.

(** Where the remainder is derived, the call that derives it does not act
    on it: on the 2x3 board whose mine is at (0,1), when (1,1) is revealed
    the knowledge holds {(0,1),(1,0),(1,2)} = 1 and {(0,1),(1,0)} = 1 as
    the subsumption pass starts; the call derives {(1,2)} = 0 and returns
    with (1,2) not in [safes]. *)
Lemma derived_cell_not_marked_safe :
  let a1 := MinesweeperAI.closure (MinesweeperAI.observe (1, 1) 1 wide_board) in
  Sentence.mk {[ (0, 1); (1, 0); (1, 2) ]} 1 ∈ (MinesweeperAI.knowledge a1).*2 ∧
  Sentence.mk {[ (0, 1); (1, 0) ]} 1 ∈ (MinesweeperAI.knowledge a1).*2 ∧
  ∃ a', MinesweeperAI.add_knowledge 30 (1, 1) 1 wide_board = MinesweeperAI.Done a' ∧
        Sentence.mk {[ (1, 2) ]} 0 ∈ (MinesweeperAI.knowledge a').*2 ∧
        ((1, 2) ∉ MinesweeperAI.safes a').
Proof.
  intros a1. split; [by_computation|]. split; [by_computation|].
  eexists. split; [vm_compute; reflexivity|].
  split; by_computation.
Qed.

(** C10, as stated, fails in "all operations are total": on the 1x2 board
    where (0,0) was revealed with count 2, [add_knowledge((0,1), 0)] never
    returns, whatever the fuel. *)
Lemma add_knowledge_may_not_return :
  ¬ ∃ fuel a', MinesweeperAI.add_knowledge fuel (0, 1) 0 short_board
               = MinesweeperAI.Done a'.
Proof. intros (fuel & a' & H). by rewrite subsumption_runs_on in H. Qed.

(** C10: no operation raises or checks the range of [count]:
    [Sentence.mark_mine] on a member of a sentence with count 0 leaves the
    count at -1; [add_knowledge] never raises, and it returns when what the
    agent believes is true of the board and the observation is truthful;
    its subsumption pass can append a sentence with a negative count (here
    {(0,3)} = -1). *)
Theorem no_range_check_on_count :
  (∀ s c, c ∈ Sentence.cells s → Sentence.count s = 0 →
          Sentence.count (Sentence.mark_mine c s) = -1) ∧
  (∀ fuel cell count a,
     MinesweeperAI.add_knowledge fuel cell count a ≠ MinesweeperAI.Raised) ∧
  (∀ fuel a b cell,
     MinesweeperAI.height a = Minesweeper.height b →
     MinesweeperAI.width a = Minesweeper.width b →
     cell ∉ Minesweeper.mines b →
     wf_idents (MinesweeperAI.knowledge a, MinesweeperAI.fresh a) →
     sound (Minesweeper.mines b) a →
     let count := Minesweeper.nearby_mines b cell in
     (enough_fuel
        (MinesweeperAI.knowledge
           (MinesweeperAI.closure (MinesweeperAI.observe cell count a)))
      ≤ fuel)%nat →
     ∃ a', MinesweeperAI.add_knowledge fuel cell count a = MinesweeperAI.Done a' ∧
           sound (Minesweeper.mines b) a') ∧
  (∃ a', MinesweeperAI.add_knowledge 20 (0, 2) 1 narrow_board
         = MinesweeperAI.Done a' ∧
         length (MinesweeperAI.knowledge
                   (MinesweeperAI.closure
                      (MinesweeperAI.observe (0, 2) 1 narrow_board))) = 2%nat ∧
         MinesweeperAI.knowledge a' !! 2%nat
         = Some (2%nat, Sentence.mk {[ (0, 3) ]} (-1))).
Proof.
  split; [|split; [|split]].
  - intros s c Hc H0. rewrite sentence_mark_mine_in by done. simpl. lia.
  - intros fuel cell count a. unfold MinesweeperAI.add_knowledge, MinesweeperAI.subsume.
    pose proof (outer_not_Raised fuel 0
                  (MinesweeperAI.knowledge
                     (MinesweeperAI.closure (MinesweeperAI.observe cell count a)),
                   MinesweeperAI.fresh
                     (MinesweeperAI.closure (MinesweeperAI.observe cell count a)))).
    by destruct (MinesweeperAI.outer _ _ _).
  - intros fuel a b cell Hh Hw Hc Hwf Ha count Hfuel.
    by apply add_knowledge_sound.
  - eexists. split; [vm_compute; reflexivity|].
    split; vm_compute; reflexivity.
Qed.

Lemma no_range_check_on_count_witness :
  let s := Sentence.mk {[ (0, 1) ]} 0 in
  (0, 1) ∈ Sentence.cells s ∧ Sentence.count s = 0 ∧
  Sentence.count (Sentence.mark_mine (0, 1) s) = -1.
Proof.
  intros s.
  assert (H1 : (0, 1) ∈ Sentence.cells s) by by_computation.
  assert (H2 : Sentence.count s = 0) by reflexivity.
  split; [exact H1|]. split; [exact H2|].
  exact (proj1 no_range_check_on_count s (0, 1) H1 H2).
Defined.

(** * Further properties of [Sentence] *)

Lemma sentence_mark_mine_safe_comm (s : Sentence.t) (c d : Cell) :
  c ≠ d →
  Sentence.mark_mine c (Sentence.mark_safe d s)
  = Sentence.mark_safe d (Sentence.mark_mine c s).
Proof.
  intros Hcd.
  destruct (decide (c ∈ Sentence.cells s)) as [Hc|Hc];
    destruct (decide (d ∈ Sentence.cells s)) as [Hd|Hd].
  - rewrite (sentence_mark_safe_in s d), (sentence_mark_mine_in s c) by done.
    rewrite sentence_mark_mine_in, sentence_mark_safe_in by (simpl; set_solver).
    simpl. f_equal. set_solver.
  - rewrite (sentence_mark_safe_notin s d) by done.
    rewrite (sentence_mark_safe_notin _ d); [done|].
    rewrite sentence_mark_mine_cells. set_solver.
  - rewrite (sentence_mark_mine_notin s c) by done.
    rewrite (sentence_mark_mine_notin _ c); [done|].
    rewrite sentence_mark_safe_cells. set_solver.
  - by rewrite (sentence_mark_safe_notin s d), !(sentence_mark_mine_notin s c),
      (sentence_mark_safe_notin s d).
Qed.

(** X1: the two mutations of a [Sentence] commute when they are for
    different cells, and also when they are the same mutation; for one cell
    the first mutation wins, the opposite one after it changes nothing. *)
Theorem sentence_marks_compose (s : Sentence.t) (c d : Cell) :
  (c ≠ d →
     Sentence.mark_mine c (Sentence.mark_safe d s)
     = Sentence.mark_safe d (Sentence.mark_mine c s)) ∧
  Sentence.mark_mine c (Sentence.mark_mine d s)
  = Sentence.mark_mine d (Sentence.mark_mine c s) ∧
  Sentence.mark_safe c (Sentence.mark_safe d s)
  = Sentence.mark_safe d (Sentence.mark_safe c s) ∧
  Sentence.mark_safe c (Sentence.mark_mine c s) = Sentence.mark_mine c s ∧
  Sentence.mark_mine c (Sentence.mark_safe c s) = Sentence.mark_safe c s.
Proof.
  assert (Hmm : ∀ x y t, x ≠ y →
            Sentence.mark_mine x (Sentence.mark_mine y t)
            = Sentence.mark_mine y (Sentence.mark_mine x t)).
  { intros x y t Hxy.
    destruct (decide (x ∈ Sentence.cells t)) as [Hx|Hx];
      destruct (decide (y ∈ Sentence.cells t)) as [Hy|Hy].
    - rewrite (sentence_mark_mine_in t y), (sentence_mark_mine_in t x) by done.
      rewrite !sentence_mark_mine_in by (simpl; set_solver). simpl.
      f_equal. set_solver.
    - rewrite (sentence_mark_mine_notin t y) by done.
      rewrite (sentence_mark_mine_notin _ y); [done|].
      rewrite sentence_mark_mine_cells. set_solver.
    - rewrite (sentence_mark_mine_notin t x) by done.
      rewrite (sentence_mark_mine_notin _ x); [done|].
      rewrite sentence_mark_mine_cells. set_solver.
    - by rewrite (sentence_mark_mine_notin t y), !(sentence_mark_mine_notin t x),
        (sentence_mark_mine_notin t y). }
  assert (Hss : ∀ x y t, x ≠ y →
            Sentence.mark_safe x (Sentence.mark_safe y t)
            = Sentence.mark_safe y (Sentence.mark_safe x t)).
  { intros x y t Hxy.
    destruct (decide (x ∈ Sentence.cells t)) as [Hx|Hx];
      destruct (decide (y ∈ Sentence.cells t)) as [Hy|Hy].
    - rewrite (sentence_mark_safe_in t y), (sentence_mark_safe_in t x) by done.
      rewrite !sentence_mark_safe_in by (simpl; set_solver). simpl.
      f_equal. set_solver.
    - rewrite (sentence_mark_safe_notin t y) by done.
      rewrite (sentence_mark_safe_notin _ y); [done|].
      rewrite sentence_mark_safe_cells. set_solver.
    - rewrite (sentence_mark_safe_notin t x) by done.
      rewrite (sentence_mark_safe_notin _ x); [done|].
      rewrite sentence_mark_safe_cells. set_solver.
    - by rewrite (sentence_mark_safe_notin t y), !(sentence_mark_safe_notin t x),
        (sentence_mark_safe_notin t y). }
  split; [|split; [|split; [|split]]].
  - apply sentence_mark_mine_safe_comm.
  - destruct (decide (c = d)) as [->|Hcd]; [done|by apply Hmm].
  - destruct (decide (c = d)) as [->|Hcd]; [done|by apply Hss].
  - apply sentence_mark_safe_notin. rewrite sentence_mark_mine_cells. set_solver.
  - apply sentence_mark_mine_notin. rewrite sentence_mark_safe_cells. set_solver.
Qed.

Lemma sentence_marks_compose_witness :
  let s := Sentence.mk {[ (0, 1); (1, 1); (1, 0) ]} 2 in
  Sentence.mark_mine (0, 1) (Sentence.mark_safe (1, 1) s)
  = Sentence.mark_safe (1, 1) (Sentence.mark_mine (0, 1) s).
Proof.
  intros s. apply (proj1 (sentence_marks_compose s (0, 1) (1, 1))). discriminate.
Defined.

(** X2: a [Sentence] never yields cells both ways: [known_safes] and
    [known_mines] are not both a non-empty set. *)
Theorem known_safes_mines_exclusive (s : Sentence.t) :
  truthy (Sentence.known_safes s) && truthy (Sentence.known_mines s) = false.
Proof.
  destruct (truthy (Sentence.known_safes s)) eqn:Es; [|done].
  destruct (truthy (Sentence.known_mines s)) eqn:Em; [|done].
  apply truthy_known_safes in Es as (_ & H0 & Hne).
  apply truthy_known_mines in Em as (_ & Hl & _).
  unfold Sentence.len in Hl. rewrite H0 in Hl.
  assert (E : size (Sentence.cells s) = 0%nat) by lia.
  apply size_empty_iff in E. destruct Hne. by apply leibniz_equiv.
Qed.

(** X3: a [Sentence] that is true of a board (its count is the number of
    its cells that are mines) draws only true conclusions and stays true:
    the cells of [known_safes] are no mines, those of [known_mines] are all
    mines, and it is still true after [mark_safe] of a cell that is no mine
    and after [mark_mine] of a mine. *)
Theorem sentence_is_sound (M : gset Cell) (s : Sentence.t) :
  holds M s →
  (∀ X, Sentence.known_safes s = Some X → X ## M) ∧
  (∀ X, Sentence.known_mines s = Some X → X ⊆ M) ∧
  (∀ c, c ∉ M → holds M (Sentence.mark_safe c s)) ∧
  (∀ c, c ∈ M → holds M (Sentence.mark_mine c s)).
Proof.
  intros H. split; [|split; [|split]].
  - intros X. unfold Sentence.known_safes. case_bool_decide; [|done].
    intros [= <-]. by apply holds_zero.
  - intros X. unfold Sentence.known_mines. case_bool_decide; [|done].
    intros [= <-]. by apply holds_full.
  - intros c Hc. by apply holds_mark_safe.
  - intros c Hc. by apply holds_mark_mine.
Qed.

Lemma sentence_is_sound_witness :
  let s := Sentence.mk {[ (0, 1); (1, 1) ]} 2 in
  let M : gset Cell := {[ (0, 1); (1, 1); (2, 2) ]} in
  holds M s ∧ ∀ X, Sentence.known_mines s = Some X → X ⊆ M.
Proof.
  intros s M.
  assert (H : holds M s) by (unfold holds; by_computation).
  split; [exact H|]. exact (proj1 (proj2 (sentence_is_sound M s H))).
Defined.

(** * Further properties of the agent *)

Section more_agent_facts.
Import MinesweeperAI.
Implicit Types (a : MinesweeperAI.t) (c d cell : Cell) (l : list Cell)
               (X S : gset Cell) (x y z : ident * Sentence.t).

Lemma shrunk_to_refl S x : shrunk_to S x x.
Proof.
  unfold shrunk_to. split; [done|]. split; [done|].
  replace (Sentence.cells x.2 ∖ Sentence.cells x.2) with (∅ : gset Cell)
    by set_solver.
  rewrite size_empty. split; [set_solver|lia].
Qed.

Lemma shrunk_to_trans S S' x y z :
  S ⊆ S' → shrunk_to S x y → shrunk_to S' y z → shrunk_to S' x z.
Proof.
  unfold shrunk_to. intros HS (E1 & H1 & H1' & C1 & D1) (E2 & H2 & H2' & C2 & D2).
  split; [congruence|]. split; [set_solver|]. split; [set_solver|].
  split; [lia|].
  assert (E : Sentence.cells x.2 ∖ Sentence.cells z.2
              = (Sentence.cells x.2 ∖ Sentence.cells y.2)
                ∪ (Sentence.cells y.2 ∖ Sentence.cells z.2)).
  { apply set_eq. intros c.
    rewrite elem_of_union, !elem_of_difference.
    destruct (decide (c ∈ Sentence.cells y.2)); set_solver. }
  rewrite E.
  pose proof (size_union (Sentence.cells x.2 ∖ Sentence.cells y.2)
                (Sentence.cells y.2 ∖ Sentence.cells z.2)) as Hu.
  rewrite Hu by set_solver. lia.
Qed.

Lemma shrunk_to_marked_safe S X x :
  X ⊆ S → shrunk_to S x (prod_map id (marked_safe (elements X)) x).
Proof.
  intros HX. destruct x as [i s]. unfold shrunk_to; simpl.
  rewrite marked_safe_eq, list_to_set_elements_L; simpl.
  split; [done|]. split; [set_solver|]. split; [set_solver|]. lia.
Qed.

Lemma shrunk_to_marked_mine S X x :
  X ⊆ S → shrunk_to S x (prod_map id (marked_mine (elements X)) x).
Proof.
  intros HX. destruct x as [i s]. unfold shrunk_to; simpl.
  rewrite marked_mine_any_order by apply NoDup_elements.
  rewrite list_to_set_elements_L; simpl.
  split; [done|]. split; [set_solver|]. split; [set_solver|].
  replace (Sentence.cells s ∖ (Sentence.cells s ∖ X))
    with (Sentence.cells s ∩ X).
  - lia.
  - apply set_eq. intros c. rewrite elem_of_intersection, !elem_of_difference.
    destruct (decide (c ∈ X)); set_solver.
Qed.

(** What the closure sweep does to the list: entry by entry, see
    [shrunk_to]. *)
Lemma shrunk_visit_safes i a :
  Forall2 (shrunk_to (safes (visit_safes i a) ∪ mines (visit_safes i a)))
          (knowledge a) (knowledge (visit_safes i a)).
Proof.
  unfold visit_safes.
  destruct (knowledge a !! i) as [[id s]|];
    [|apply Forall_Forall2_diag, Forall_forall; intros; apply shrunk_to_refl].
  simpl. destruct (truthy _);
    [|apply Forall_Forall2_diag, Forall_forall; intros; apply shrunk_to_refl].
  rewrite mark_safes_eq; simpl. apply Forall2_fmap_r, Forall_Forall2_diag.
  apply Forall_forall. intros x _. apply shrunk_to_marked_safe. set_solver.
Qed.

Lemma shrunk_visit_mines i a :
  Forall2 (shrunk_to (safes (visit_mines i a) ∪ mines (visit_mines i a)))
          (knowledge a) (knowledge (visit_mines i a)).
Proof.
  unfold visit_mines.
  destruct (knowledge a !! i) as [[id s]|];
    [|apply Forall_Forall2_diag, Forall_forall; intros; apply shrunk_to_refl].
  simpl. destruct (truthy _);
    [|apply Forall_Forall2_diag, Forall_forall; intros; apply shrunk_to_refl].
  rewrite mark_mines_eq; simpl. apply Forall2_fmap_r, Forall_Forall2_diag.
  apply Forall_forall. intros x _. apply shrunk_to_marked_mine. set_solver.
Qed.

Lemma shrunk_trans (a b e : MinesweeperAI.t) :
  safes b ∪ mines b ⊆ safes e ∪ mines e →
  Forall2 (shrunk_to (safes b ∪ mines b)) (knowledge a) (knowledge b) →
  Forall2 (shrunk_to (safes e ∪ mines e)) (knowledge b) (knowledge e) →
  Forall2 (shrunk_to (safes e ∪ mines e)) (knowledge a) (knowledge e).
Proof.
  intros HS. apply Forall2_trans. intros x y z. by apply shrunk_to_trans.
Qed.

Lemma extends_marks a b : extends a b → safes a ∪ mines a ⊆ safes b ∪ mines b.
Proof. intros (_ & _ & _ & _ & _ & ? & ?). set_solver. Qed.

Lemma visit_mines_extends i a : extends a (visit_mines i a).
Proof.
  unfold visit_mines. repeat case_match; auto using extends_refl, mark_mines_extends.
Qed.

Lemma shrunk_visit i a :
  Forall2 (shrunk_to (safes (visit i a) ∪ mines (visit i a)))
          (knowledge a) (knowledge (visit i a)).
Proof.
  rewrite visit_eq. eapply shrunk_trans; [|apply shrunk_visit_safes|apply shrunk_visit_mines].
  apply extends_marks, visit_mines_extends.
Qed.

Lemma shrunk_sweep n i a :
  Forall2 (shrunk_to (safes (sweep n i a) ∪ mines (sweep n i a)))
          (knowledge a) (knowledge (sweep n i a)).
Proof.
  revert i a. induction n as [|n IH]; intros i a; simpl.
  - apply Forall_Forall2_diag, Forall_forall; intros; apply shrunk_to_refl.
  - eapply shrunk_trans; [|apply shrunk_visit|apply IH].
    apply extends_marks, sweep_extends.
Qed.

End more_agent_facts.

(** X4: marking a set of cells one cell at a time, as the loops of step 4
    do, gives the same agent whatever the order in which the set is
    listed; and marks of two different cells commute. *)
Theorem marking_order_irrelevant (a : MinesweeperAI.t) (l l' : list Cell) (c d : Cell) :
  (NoDup l → NoDup l' → (list_to_set l : gset Cell) = list_to_set l' →
     foldl (λ a c, MinesweeperAI.mark_safe c a) a l
     = foldl (λ a c, MinesweeperAI.mark_safe c a) a l' ∧
     foldl (λ a c, MinesweeperAI.mark_mine c a) a l
     = foldl (λ a c, MinesweeperAI.mark_mine c a) a l') ∧
  (c ≠ d →
     MinesweeperAI.mark_safe c (MinesweeperAI.mark_mine d a)
     = MinesweeperAI.mark_mine d (MinesweeperAI.mark_safe c a)).
Proof.
  split.
  - intros Hl Hl' E. split.
    + by rewrite (mark_safes_any_order (list_to_set l) a l),
        (mark_safes_any_order (list_to_set l) a l').
    + by rewrite (mark_mines_any_order (list_to_set l) a l),
        (mark_mines_any_order (list_to_set l) a l').
  - intros Hcd. unfold MinesweeperAI.mark_safe, MinesweeperAI.mark_mine; simpl.
    f_equal. rewrite <- !list_fmap_compose. apply list_fmap_ext.
    intros _ [i s] _. simpl. unfold prod_map; simpl. f_equal.
    symmetry. apply sentence_mark_mine_safe_comm. congruence.
Qed.

Lemma marking_order_irrelevant_witness :
  let a := tall_board in
  foldl (λ a c, MinesweeperAI.mark_mine c a) a [(0, 1); (1, 1)]
  = foldl (λ a c, MinesweeperAI.mark_mine c a) a [(1, 1); (0, 1)].
Proof.
  intros a.
  apply (proj1 (marking_order_irrelevant a [(0, 1); (1, 1)] [(1, 1); (0, 1)]
                  (0, 0) (0, 0))).
  - by_computation.
  - by_computation.
  - vm_compute. reflexivity.
Defined.

(** X5: [add_knowledge] only adds to what the agent knows: when it
    returns, [moves_made] has gained exactly the revealed cell, [safes]
    holds that cell and everything it held, [mines] holds everything it
    held, and the size of the board is unchanged. *)
Theorem add_knowledge_grows (fuel : nat) (cell : Cell) (count : Z)
    (a a' : MinesweeperAI.t) :
  MinesweeperAI.add_knowledge fuel cell count a = MinesweeperAI.Done a' →
  MinesweeperAI.moves_made a' = {[ cell ]} ∪ MinesweeperAI.moves_made a ∧
  {[ cell ]} ∪ MinesweeperAI.safes a ⊆ MinesweeperAI.safes a' ∧
  MinesweeperAI.mines a ⊆ MinesweeperAI.mines a' ∧
  MinesweeperAI.height a' = MinesweeperAI.height a ∧
  MinesweeperAI.width a' = MinesweeperAI.width a.
Proof.
  intros H. unfold MinesweeperAI.add_knowledge in H.
  apply subsume_frame in H as (-> & -> & -> & -> & ->).
  destruct (closure_extends (MinesweeperAI.observe cell count a))
    as (-> & -> & -> & _ & _ & Hs & Hm).
  split; [done|]. split; [exact Hs|]. split; [exact Hm|]. done.
Qed.

Lemma add_knowledge_grows_witness :
  let a' := returned (MinesweeperAI.add_knowledge 20 (1, 0) 1 tall_board) tall_board in
  MinesweeperAI.moves_made a' = {[ (1, 0) ]} ∪ MinesweeperAI.moves_made tall_board.
Proof.
  intros a'.
  apply (add_knowledge_grows 20 (1, 0) 1 tall_board a').
  vm_compute. reflexivity.
Defined.

(** X6: the closure sweep (step 4 of [add_knowledge]) neither adds nor
    removes nor reorders sentences and leaves [moves_made] alone; [safes]
    and [mines] only grow; a sentence only loses cells, every cell it loses
    is in [safes] or [mines] afterwards, and its count goes down by at most
    the number of cells it lost. *)
Theorem closure_sweep_frame (a : MinesweeperAI.t) :
  let a' := MinesweeperAI.closure a in
  MinesweeperAI.moves_made a' = MinesweeperAI.moves_made a ∧
  MinesweeperAI.safes a ⊆ MinesweeperAI.safes a' ∧
  MinesweeperAI.mines a ⊆ MinesweeperAI.mines a' ∧
  length (MinesweeperAI.knowledge a') = length (MinesweeperAI.knowledge a) ∧
  Forall2 (shrunk_to (MinesweeperAI.safes a' ∪ MinesweeperAI.mines a'))
          (MinesweeperAI.knowledge a) (MinesweeperAI.knowledge a').
Proof.
  intros a'. destruct (closure_extends a) as (_ & _ & Hmv & _ & _ & Hs & Hm).
  pose proof (shrunk_sweep (length (MinesweeperAI.knowledge a)) 0 a) as H.
  split; [done|]. split; [done|]. split; [done|].
  split; [symmetry; by eapply Forall2_length|exact H].
Qed.

(** * Further properties of the subsumption pass *)

Section subsumption_closed.
Import MinesweeperAI.
Variable P : Sentence.t → Prop.
Hypothesis P_difference :
  ∀ p q, P p → P q → Sentence.cells p ⊆ Sentence.cells q → P (difference p q).

Lemma pair_step_closed p q st r :
  P p.2 → P q.2 → Forall (λ y, P y.2) st.1 →
  pair_step p q st = Done r → Forall (λ y, P y.2) r.1.
Proof.
  intros Hp Hq Hst. destruct st as [k f]. unfold pair_step. simpl in *.
  case_bool_decide; [by intros [= <-]|].
  destruct (Sentence.eqb p.2 q.2).
  { destruct (list_remove q k) as [k'|] eqn:E; [|done].
    intros [= <-]. simpl. by eapply list_remove_Forall. }
  case_bool_decide as Hsub; [|by intros [= <-]].
  destruct (contains _ k); intros [= <-]; simpl; [done|].
  apply Forall_app. split; [done|]. apply Forall_singleton. simpl. by apply P_difference.
Qed.

Lemma inner_closed fuel p j st r :
  P p.2 → Forall (λ y, P y.2) st.1 →
  inner fuel p j st = Done r → Forall (λ y, P y.2) r.1.
Proof.
  revert j st. induction fuel as [|fuel IH]; intros j st Hp Hst; simpl; [done|].
  destruct (st.1 !! j) as [q|] eqn:Ej; [|by intros [= <-]].
  destruct (pair_step p q st) as [st'| |] eqn:E; simpl; [|done..].
  apply IH; [done|]. eapply pair_step_closed; [done| |done|done].
  rewrite Forall_forall in Hst. apply (Hst q). by eapply list_elem_of_lookup_2.
Qed.

Lemma outer_closed fuel i st r :
  Forall (λ y, P y.2) st.1 →
  outer fuel i st = Done r → Forall (λ y, P y.2) r.1.
Proof.
  revert i st. induction fuel as [|fuel IH]; intros i st Hst; simpl; [done|].
  destruct (st.1 !! i) as [p|] eqn:Ei; [|by intros [= <-]].
  destruct (inner fuel p 0 st) as [st'| |] eqn:E; simpl; [|done..].
  apply IH. eapply inner_closed; [|done|done].
  rewrite Forall_forall in Hst. apply (Hst p). by eapply list_elem_of_lookup_2.
Qed.

Lemma subsume_closed fuel a a' :
  Forall (λ y, P y.2) (knowledge a) →
  subsume fuel a = Done a' → Forall (λ y, P y.2) (knowledge a').
Proof.
  intros Ha. unfold subsume.
  destruct (outer fuel 0 (knowledge a, fresh a)) as [st| |] eqn:E; simpl; [|done..].
  intros [= <-]. simpl. by eapply outer_closed in E.
Qed.

End subsumption_closed.

Section subsumption_keeps_values.
Import MinesweeperAI.
Implicit Types (p q : ident * Sentence.t) (k : list (ident * Sentence.t))
               (st r : kstate).

Lemma alive_value p j k : alive p j k → p.2 ∈ k.*2.
Proof.
  intros [H|(m & y & _ & Hm & Hy)].
  - apply list_elem_of_fmap. by exists p.
  - apply list_elem_of_fmap. exists y. split; [done|]. by eapply list_elem_of_lookup_2.
Qed.

Lemma pair_step_keeps p q j st r :
  wf_idents st → alive p j st.1 → st.1 !! j = Some q →
  pair_step p q st = Done r →
  alive p (S j) r.1 ∧ st.1.*2 ⊆ r.1.*2.
Proof.
  intros Hwf Hal Hj. destruct st as [k f]. unfold pair_step. simpl in *.
  case_bool_decide as Hid; [intros [= <-]; split; [by apply alive_S|done]|].
  destruct (Sentence.eqb p.2 q.2) eqn:Eeq.
  { apply sentence_eqb_eq in Eeq.
    destruct (list_remove q k) as [k'|] eqn:E; [|done].
    intros [= <-]. simpl.
    destruct (remove_duplicate p q j k k' f Hwf Hal Hj Hid Eeq E) as [Hal' _].
    split; [done|].
    destruct (list_remove_split _ _ _ E) as (k1 & y & k2 & -> & -> & Hy & _).
    assert (Hyq : y.2 = q.2).
    { eapply (same_value _ f y q); [done| | |done].
      - set_solver.
      - by eapply list_elem_of_lookup_2. }
    intros s Hs. rewrite fmap_app, fmap_cons in Hs.
    rewrite elem_of_app, elem_of_cons in Hs.
    rewrite fmap_app, elem_of_app.
    destruct Hs as [Hs|[->|Hs]]; [by left| |by right].
    rewrite Hyq, <- Eeq. apply alive_value in Hal'.
    by rewrite fmap_app, elem_of_app in Hal'. }
  case_bool_decide as Hsub.
  - destruct (contains _ k); intros [= <-]; simpl.
    + split; [by apply alive_S|done].
    + split; [by apply alive_app, alive_S|]. rewrite fmap_app. set_solver.
  - intros [= <-]. split; [by apply alive_S|done].
Qed.

Lemma inner_keeps fuel p j st r :
  wf_idents st → alive p j st.1 →
  inner fuel p j st = Done r → st.1.*2 ⊆ r.1.*2.
Proof.
  revert j st. induction fuel as [|fuel IH]; intros j st Hwf Hal; simpl; [done|].
  destruct (st.1 !! j) as [q|] eqn:Ej; [|by intros [= <-]].
  destruct (pair_step p q st) as [st'| |] eqn:E; simpl; [|done..].
  intros Hrun.
  destruct (pair_step_keeps p q j st st' Hwf Hal Ej E) as [Hal' Hsub].
  etrans; [exact Hsub|].
  eapply IH; [|done|done]. by eapply pair_step_wf.
Qed.

Lemma outer_keeps fuel i st r :
  wf_idents st → outer fuel i st = Done r → st.1.*2 ⊆ r.1.*2.
Proof.
  revert i st. induction fuel as [|fuel IH]; intros i st Hwf; simpl; [done|].
  destruct (st.1 !! i) as [p|] eqn:Ei; [|by intros [= <-]].
  destruct (inner fuel p 0 st) as [st'| |] eqn:E; simpl; [|done..].
  intros Hrun. etrans.
  - eapply inner_keeps; [done| |done]. left. by eapply list_elem_of_lookup_2.
  - eapply IH; [|done]. by eapply inner_wf.
Qed.

End subsumption_keeps_values.

(** X7: a whole game played on truthful counts.  When the cells revealed
    are not mines of the board and each is reported with the board's own
    [nearby_mines], the calls to [add_knowledge] all return, what the agent
    then believes is true of the board, and no cell [make_safe_move] can
    return is a mine. *)
Theorem truthful_game_never_hits_a_mine (b : Minesweeper.t) (cells : list Cell) :
  Forall (λ c, c ∉ Minesweeper.mines b) cells →
  ∃ fuel0 : nat, ∀ fuel : nat, (fuel0 ≤ fuel)%nat →
    ∃ a, play fuel ((λ c, (c, Minesweeper.nearby_mines b c)) <$> cells)
              (MinesweeperAI.init (Minesweeper.height b) (Minesweeper.width b))
         = MinesweeperAI.Done a ∧
         sound (Minesweeper.mines b) a ∧
         ∀ r c, (MinesweeperAI.make_safe_move r a).1 = Some c →
                c ∉ Minesweeper.mines b.
Proof.
  intros Hcells.
  destruct (truthful_play b cells Hcells) as (fuel0 & a & Hs & _ & _ & _ & Hrun).
  exists fuel0. intros fuel Hfuel. exists a.
  split; [by apply Hrun|]. split; [done|].
  intros r c. by apply safe_move_is_safe.
Qed.

Lemma truthful_game_never_hits_a_mine_witness :
  let b := Minesweeper.mk 3 2 {[ (1, 1) ]} in
  ∃ fuel0 : nat, ∀ fuel : nat, (fuel0 ≤ fuel)%nat →
    ∃ a, play fuel ((λ c, (c, Minesweeper.nearby_mines b c)) <$> [(0, 0); (1, 0)])
              (MinesweeperAI.init (Minesweeper.height b) (Minesweeper.width b))
         = MinesweeperAI.Done a ∧
         sound (Minesweeper.mines b) a ∧
         ∀ r c, (MinesweeperAI.make_safe_move r a).1 = Some c →
                c ∉ Minesweeper.mines b.
Proof.
  intros b. apply (truthful_game_never_hits_a_mine b [(0, 0); (1, 0)]).
  repeat constructor; by_computation.
Defined.

(** X8: the subsumption pass on a list without equal sentences.  Whenever
    the loops end, they have removed and reordered nothing (the list they
    started from is a prefix of the list they end with), no two sentences
    are equal, and the list holds the difference of every pair of distinct
    entries of which one's cells are a subset of the other's.  They do end,
    given enough fuel, when the sentences are all true of one board. *)
Theorem subsumption_on_distinct_sentences (fuel : nat) (a : MinesweeperAI.t) :
  wf_idents (MinesweeperAI.knowledge a, MinesweeperAI.fresh a) →
  distinct (MinesweeperAI.knowledge a) →
  (∀ a', MinesweeperAI.subsume fuel a = MinesweeperAI.Done a' →
     MinesweeperAI.knowledge a `prefix_of` MinesweeperAI.knowledge a' ∧
     distinct (MinesweeperAI.knowledge a') ∧
     ∀ p q, p ∈ MinesweeperAI.knowledge a → q ∈ MinesweeperAI.knowledge a →
            p ≠ q → Sentence.cells p.2 ⊆ Sentence.cells q.2 →
            MinesweeperAI.difference p.2 q.2 ∈ (MinesweeperAI.knowledge a').*2) ∧
  (∀ M, consistent M (MinesweeperAI.knowledge a) →
        (enough_fuel (MinesweeperAI.knowledge a) ≤ fuel)%nat →
        ∃ a', MinesweeperAI.subsume fuel a = MinesweeperAI.Done a').
Proof.
  intros Hwf Hd. split.
  - intros a' Hrun.
    destruct (subsume_distinct fuel a a' Hwf Hd Hrun) as (Hpre & Hd' & Hder).
    split; [done|]. split; [done|].
    intros p q Hp Hq Hpq Hsub. apply Hder; [done|done| |done].
    intros Hid. apply Hpq.
    destruct Hwf as [Hnd _]. simpl in Hnd.
    apply list_elem_of_lookup_1 in Hp as [i Hi], Hq as [j Hj].
    assert (i = j) as ->.
    { eapply NoDup_lookup; [exact Hnd| |].
      - by rewrite list_lookup_fmap, Hi.
      - rewrite list_lookup_fmap, Hj. simpl. by rewrite Hid. }
    congruence.
  - intros M Hc Hfuel.
    destruct (subsume_returns M (cells_of (MinesweeperAI.knowledge a)) fuel a
                Hwf Hc (within_cells_of _) Hfuel) as (a' & Hrun & _).
    by exists a'.
Qed.

Lemma subsumption_on_distinct_sentences_witness :
  let a := MinesweeperAI.closure (MinesweeperAI.observe (1, 0) 1 tall_board) in
  let a' := returned (MinesweeperAI.subsume 40 a) a in
  MinesweeperAI.knowledge a `prefix_of` MinesweeperAI.knowledge a' ∧
  ∃ a', MinesweeperAI.subsume 40 a = MinesweeperAI.Done a'.
Proof.
  intros a a'.
  assert (Hwf : wf_idents (MinesweeperAI.knowledge a, MinesweeperAI.fresh a))
    by (unfold wf_idents; by_computation).
  assert (Hd : distinct (MinesweeperAI.knowledge a))
    by (unfold distinct; by_computation).
  destruct (subsumption_on_distinct_sentences 40 a Hwf Hd) as [Hend Hret].
  split.
  - apply (Hend a'). vm_compute. reflexivity.
  - apply (Hret {[ (1, 1) ]}).
    + unfold consistent, holds. by_computation.
    + vm_compute. lia.
Defined.

(** X9: the subsumption pass only adds consequences: if every sentence in
    the list is true of a board, so is every sentence in the list it ends
    with; and it mentions no cell that no sentence mentioned before. *)
Theorem subsumption_adds_consequences (fuel : nat) (a a' : MinesweeperAI.t)
    (M : gset Cell) :
  MinesweeperAI.subsume fuel a = MinesweeperAI.Done a' →
  (consistent M (MinesweeperAI.knowledge a) →
   consistent M (MinesweeperAI.knowledge a')) ∧
  cells_of (MinesweeperAI.knowledge a') ⊆ cells_of (MinesweeperAI.knowledge a).
Proof.
  intros Hrun. split.
  - intros Hc. eapply (subsume_closed (holds M)); [|exact Hc|exact Hrun].
    intros p q Hp Hq Hsub. by apply holds_difference.
  - assert (H : within (cells_of (MinesweeperAI.knowledge a))
                       (MinesweeperAI.knowledge a')).
    { eapply (subsume_closed (λ s, Sentence.cells s
                                   ⊆ cells_of (MinesweeperAI.knowledge a)));
        [|apply within_cells_of|exact Hrun].
      intros p q _ Hq _. unfold MinesweeperAI.difference. simpl. set_solver. }
    unfold within in H. rewrite Forall_forall in H.
    unfold cells_of at 1. intros c Hc.
    apply elem_of_union_list in Hc as (X & HX & Hc).
    apply list_elem_of_fmap in HX as (y & -> & Hy). by apply (H y).
Qed.

Lemma subsumption_adds_consequences_witness :
  let a := MinesweeperAI.closure (MinesweeperAI.observe (1, 0) 1 tall_board) in
  let a' := returned (MinesweeperAI.subsume 20 a) a in
  cells_of (MinesweeperAI.knowledge a') ⊆ cells_of (MinesweeperAI.knowledge a).
Proof.
  intros a a'.
  apply (subsumption_adds_consequences 20 a a' ∅).
  vm_compute. reflexivity.
Defined.

(** X10: the subsumption pass forgets no sentence: although it removes
    entries from the list it iterates over, every sentence equal (by
    [__eq__]) to one in the list before is equal to one in the list it ends
    with. *)
Theorem subsumption_forgets_nothing (fuel : nat) (a a' : MinesweeperAI.t) :
  wf_idents (MinesweeperAI.knowledge a, MinesweeperAI.fresh a) →
  MinesweeperAI.subsume fuel a = MinesweeperAI.Done a' →
  ∀ s, s ∈ (MinesweeperAI.knowledge a).*2 → s ∈ (MinesweeperAI.knowledge a').*2.
Proof.
  intros Hwf. unfold MinesweeperAI.subsume.
  destruct (MinesweeperAI.outer fuel 0 (MinesweeperAI.knowledge a, MinesweeperAI.fresh a))
    as [st| |] eqn:E; simpl; [|done..].
  intros [= <-]. simpl. by apply (outer_keeps _ _ _ _ Hwf E).
Qed.

Lemma subsumption_forgets_nothing_witness :
  let a := MinesweeperAI.closure (MinesweeperAI.observe (1, 0) 1 tall_board) in
  let a' := returned (MinesweeperAI.subsume 20 a) a in
  (MinesweeperAI.knowledge a).*2 ⊆ (MinesweeperAI.knowledge a').*2.
Proof.
  intros a a' s.
  apply (subsumption_forgets_nothing 20 a a').
  - unfold wf_idents. by_computation.
  - vm_compute. reflexivity.
Defined.

(** * Neighbours and the new sentence *)

Section neighbour_facts.
Import MinesweeperAI.
Implicit Types (a : MinesweeperAI.t) (c cell : Cell) (h w : Z).

Lemma elem_of_window cell c :
  c ∈ window cell ↔
  cell.1 - 1 ≤ c.1 ≤ cell.1 + 1 ∧ cell.2 - 1 ≤ c.2 ≤ cell.2 + 1.
Proof.
  destruct cell as [i j], c as [x y]. unfold window. simpl.
  rewrite !elem_of_cons, elem_of_nil. split.
  - intros H. repeat destruct H as [H|H]; try done; injection H as -> ->; lia.
  - intros [Hx Hy].
    assert (x = i - 1 ∨ x = i ∨ x = i + 1) as [->|[->| ->]] by lia;
      assert (y = j - 1 ∨ y = j ∨ y = j + 1) as [->|[->| ->]] by lia; tauto.
Qed.

Lemma elem_of_neighbours h w cell c :
  c ∈ neighbours h w cell ↔
  c ≠ cell ∧
  (cell.1 - 1 ≤ c.1 ≤ cell.1 + 1 ∧ cell.2 - 1 ≤ c.2 ≤ cell.2 + 1) ∧
  0 ≤ c.1 < h ∧ 0 ≤ c.2 < w.
Proof.
  unfold neighbours.
  rewrite elem_of_list_to_set, list_elem_of_filter, elem_of_window. tauto.
Qed.

Lemma cell_in_window cell : cell ∈ window cell.
Proof. apply elem_of_window. lia. Qed.

Lemma size_neighbours h w cell : (size (neighbours h w cell) ≤ 8)%nat.
Proof.
  unfold neighbours.
  pose proof (size_list_to_set (C := gset Cell)
                (filter (λ c, c ≠ cell ∧ 0 ≤ c.1 < h ∧ 0 ≤ c.2 < w) (window cell))) as Hs.
  rewrite Hs by apply NoDup_filter, NoDup_window.
  pose proof (length_filter_lt (λ c, c ≠ cell ∧ 0 ≤ c.1 < h ∧ 0 ≤ c.2 < w)
                (window cell) cell (cell_in_window cell)) as H.
  assert (Hlen : length (window cell) = 9%nat) by done.
  rewrite Hlen in H. apply Nat.lt_succ_r, H. tauto.
Qed.

Lemma in_bounds_true a c :
  in_bounds a c = true ↔ 0 ≤ c.1 < height a ∧ 0 ≤ c.2 < width a.
Proof.
  unfold in_bounds. by rewrite andb_true_iff, !bool_decide_eq_true.
Qed.

(** The cells and the count that the two loops of step 3 compute. *)
Lemma scan_neighbours a cell (count : Z) :
  scan a cell count
  = (neighbours (height a) (width a) cell ∖ (moves_made a ∪ mines a),
     count - Z.of_nat (size (neighbours (height a) (width a) cell ∩ mines a))).
Proof.
  unfold scan. rewrite scan_eq. simpl. f_equal.
  - apply set_eq. intros c.
    rewrite elem_of_union, elem_of_list_to_set, list_elem_of_filter,
      elem_of_difference, elem_of_neighbours, elem_of_window, in_bounds_true.
    set_solver.
  - f_equal. f_equal.
    set (l := filter _ (window cell)).
    assert (Hnd : NoDup l) by apply NoDup_filter, NoDup_window.
    pose proof (size_list_to_set (C := gset Cell) l Hnd) as <-.
    f_equal. apply set_eq. intros c. unfold l.
    rewrite elem_of_list_to_set, list_elem_of_filter, elem_of_intersection,
      elem_of_neighbours, elem_of_window, in_bounds_true.
    tauto.
Qed.

End neighbour_facts.

(** X11: the sentence [add_knowledge] appends in step 3.  Its cells are
    the neighbours of the revealed cell on the board that are neither
    played nor known mines (a neighbour known to be safe but not played is
    kept); its count is the count passed in, less the number of neighbours
    that are known mines.  A cell has at most 8 neighbours.  The sentences
    already there have lost the revealed cell, and nothing else. *)
Theorem new_sentence_shape (cell : Cell) (count : Z) (a : MinesweeperAI.t) :
  let a0 := MinesweeperAI.observe cell count a in
  let N := neighbours (MinesweeperAI.height a) (MinesweeperAI.width a) cell in
  MinesweeperAI.knowledge a0
  = (prod_map id (Sentence.mark_safe cell) <$> MinesweeperAI.knowledge a)
    ++ [(MinesweeperAI.fresh a,
         Sentence.mk (N ∖ (MinesweeperAI.moves_made a ∪ MinesweeperAI.mines a))
                     (count - Z.of_nat (size (N ∩ MinesweeperAI.mines a))))] ∧
  (∀ c, c ∈ N ↔
        c ≠ cell ∧
        (cell.1 - 1 ≤ c.1 ≤ cell.1 + 1 ∧ cell.2 - 1 ≤ c.2 ≤ cell.2 + 1) ∧
        0 ≤ c.1 < MinesweeperAI.height a ∧ 0 ≤ c.2 < MinesweeperAI.width a) ∧
  (size N ≤ 8)%nat.
Proof.
  intros a0 N. split; [|split].
  - unfold a0, MinesweeperAI.observe, MinesweeperAI.append. simpl.
    rewrite scan_neighbours. simpl. fold N. do 3 f_equal.
    assert (Hc : cell ∉ N) by (unfold N; rewrite elem_of_neighbours; tauto).
    f_equal. set_solver.
  - intros c. apply elem_of_neighbours.
  - apply size_neighbours.
Qed.

(** X12: the move selectors can return every candidate.  For each cell of
    [safes - moves_made] some draw of the generator makes [make_safe_move]
    return it; for each cell of the grid that is neither played nor a known
    mine some draw makes [make_random_move] return it, unless
    [len(mines) + len(moves_made) == height * width]. *)
Theorem move_selectors_reach_every_candidate (a : MinesweeperAI.t) (c : Cell) :
  (c ∈ MinesweeperAI.safes a ∖ MinesweeperAI.moves_made a →
     ∃ r, (MinesweeperAI.make_safe_move r a).1 = Some c) ∧
  (open_cell a c →
   Z.of_nat (size (MinesweeperAI.mines a))
   + Z.of_nat (size (MinesweeperAI.moves_made a))
   ≠ MinesweeperAI.height a * MinesweeperAI.width a →
     ∃ r, (MinesweeperAI.make_random_move r a).1 = Some c).
Proof.
  split.
  - intros Hc. unfold MinesweeperAI.make_safe_move.
    apply elem_of_elements in Hc.
    destruct (elements _) as [|x xs]; [by apply elem_of_nil in Hc|].
    destruct (choice_any x c xs Hc) as [r Hr]. exists r. simpl. by rewrite Hr.
  - intros (Hg & Hm & Hk) Hne. unfold MinesweeperAI.make_random_move.
    rewrite bool_decide_eq_false_2 by done.
    assert (Hc : c ∈ filter (λ c, (c ∉ MinesweeperAI.moves_made a)
                                   ∧ (c ∉ MinesweeperAI.mines a))
                            (MinesweeperAI.grid a))
      by (apply list_elem_of_filter; tauto).
    destruct (filter _ _) as [|x xs]; [by apply elem_of_nil in Hc|].
    destruct (choice_any x c xs Hc) as [r Hr]. exists r. simpl. by rewrite Hr.
Qed.

Lemma move_selectors_reach_every_candidate_witness :
  ∃ r, (MinesweeperAI.make_safe_move r square_board).1 = Some (1, 1).
Proof.
  apply (proj1 (move_selectors_reach_every_candidate square_board (1, 1))).
  by_computation.
Defined.

(** X13: on a board with no rows or no columns [make_random_move] returns
    [None], whatever the agent's sets hold. *)
Theorem make_random_move_on_empty_board (r : nat) (a : MinesweeperAI.t) :
  MinesweeperAI.height a ≤ 0 ∨ MinesweeperAI.width a ≤ 0 →
  (MinesweeperAI.make_random_move r a).1 = None.
Proof.
  intros Hd. unfold MinesweeperAI.make_random_move.
  case_bool_decide; [done|].
  assert (Hg : MinesweeperAI.grid a = []).
  { apply elem_of_nil_inv. intros c Hc. apply elem_of_grid in Hc. lia. }
  by rewrite Hg.
Qed.

Lemma make_random_move_on_empty_board_witness :
  (MinesweeperAI.make_random_move 0 (MinesweeperAI.mark_mine (0, 0) (MinesweeperAI.init 0 3))).1
  = None.
Proof.
  apply make_random_move_on_empty_board. left. simpl. lia.
Defined.

(** * The board *)

Section board_facts.
Import MinesweeperBoard.
Implicit Types (g : MinesweeperBoard.t) (c cell : Cell) (h w n i j : Z)
               (m : gset Cell) (b : list (list bool)).

Lemma index_nonneg {A : Type} (l : list A) i :
  0 ≤ i → index l i = l !! Z.to_nat i.
Proof. intros H. unfold index. by rewrite bool_decide_eq_true_2. Qed.

Lemma index_None {A : Type} (l : list A) n i :
  length l = Z.to_nat n → i < - n ∨ n ≤ i → index l i = None.
Proof.
  intros Hlen Hi. unfold index. case_bool_decide.
  - apply lookup_ge_None_2. lia.
  - rewrite bool_decide_eq_false_2; [done|lia].
Qed.

Lemma index_wrap {A : Type} (l : list A) n i :
  length l = Z.to_nat n → - n ≤ i < 0 → index l i = index l (i + n).
Proof.
  intros Hlen Hi. unfold index.
  rewrite (bool_decide_eq_false_2 (0 ≤ i)) by lia.
  rewrite (bool_decide_eq_true_2 (0 ≤ i + n)) by lia.
  rewrite bool_decide_eq_true_2 by lia. f_equal. lia.
Qed.

Lemma index_elem_of {A : Type} (l : list A) i x : index l i = Some x → x ∈ l.
Proof.
  unfold index. repeat case_bool_decide; try done;
    intros Hx; by eapply list_elem_of_lookup_2.
Qed.

Lemma randrange_Some r n i : randrange r n = Some i → 0 ≤ i < n.
Proof.
  unfold randrange. case_bool_decide; [|done]. intros [= <-].
  by apply Z.mod_pos_bound.
Qed.

Lemma table_blank h w : table h w ∅ (blank h w).
Proof.
  unfold table, blank. split; [by rewrite length_replicate|].
  split; [apply Forall_replicate; by rewrite length_replicate|].
  split; [set_solver|].
  intros c Hc1 Hc2. unfold cell_at. rewrite index_nonneg by lia.
  rewrite lookup_replicate_2 by lia. simpl.
  rewrite index_nonneg by lia. rewrite lookup_replicate_2 by lia.
  by rewrite bool_decide_eq_false_2 by set_solver.
Qed.

Lemma table_store h w m b i j :
  table h w m b → 0 ≤ i < h → 0 ≤ j < w →
  table h w ({[ (i, j) ]} ∪ m) (store b (i, j)).
Proof.
  intros (Hlen & Hrows & Hin & Hat) Hi Hj. unfold store; simpl.
  split; [by rewrite length_alter|].
  split; [apply Forall_alter; [done|]; intros row _ Hrow; by rewrite length_insert|].
  split.
  { intros c [Hc|Hc]%elem_of_union; [|by apply Hin].
    apply elem_of_singleton in Hc as ->. simpl. lia. }
  intros [x y] Hx Hy. simpl in Hx, Hy. specialize (Hat (x, y) Hx Hy).
  unfold cell_at in *. simpl in *. rewrite index_nonneg in * by lia.
  destruct (decide (x = i)) as [->|Ex].
  - rewrite list_lookup_alter_eq.
    destruct (b !! Z.to_nat i) as [row|] eqn:Erow; simpl in *; [|done].
    assert (Hrow : length row = Z.to_nat w)
      by (rewrite Forall_lookup in Hrows; by apply (Hrows _ _ Erow)).
    rewrite index_nonneg in * by lia.
    destruct (decide (y = j)) as [->|Ey].
    + rewrite list_lookup_insert_eq by lia.
      f_equal. symmetry. apply bool_decide_eq_true_2. set_solver.
    + rewrite list_lookup_insert_ne by lia. rewrite Hat. f_equal.
      apply bool_decide_ext. rewrite elem_of_union, elem_of_singleton.
      split; [tauto|]. intros [?|?]; [congruence|done].
  - rewrite list_lookup_alter_ne by lia. rewrite Hat. f_equal.
    apply bool_decide_ext. rewrite elem_of_union, elem_of_singleton.
    split; [tauto|]. intros [?|?]; [congruence|done].
Qed.

Lemma place_table h w n draws m b m' b' :
  table h w m b → place h w n draws m b = Ok (m', b') →
  table h w m' b' ∧ Z.of_nat (size m') = n.
Proof.
  revert m b. induction draws as [|[r1 r2] draws IH]; intros m b Ht; simpl.
  - case_bool_decide; [by intros [= <- <-]|done].
  - case_bool_decide; [by intros [= <- <-]|].
    destruct (randrange r1 h) as [i|] eqn:Ei; [|done].
    destruct (randrange r2 w) as [j|] eqn:Ej; [|done].
    destruct (cell_at b (i, j)) as [[|]|]; [by apply IH| |done].
    apply IH. apply table_store; [done|by eapply randrange_Some..].
Qed.

Lemma place_no_IndexError h w n draws m b :
  table h w m b → place h w n draws m b ≠ Error IndexError.
Proof.
  revert m b. induction draws as [|[r1 r2] draws IH]; intros m b Ht; simpl.
  - by case_bool_decide.
  - case_bool_decide; [done|].
    destruct (randrange r1 h) as [i|] eqn:Ei; [|done].
    destruct (randrange r2 w) as [j|] eqn:Ej; [|done].
    apply randrange_Some in Ei, Ej.
    destruct Ht as (Hlen & Hrows & Hin & Hat).
    rewrite (Hat (i, j)) by done.
    destruct (bool_decide _); apply IH; [done|].
    by apply table_store.
Qed.

Lemma place_ValueError h w n r1 r2 draws m b :
  h ≤ 0 ∨ w ≤ 0 → Z.of_nat (size m) ≠ n →
  place h w n ((r1, r2) :: draws) m b = Error ValueError.
Proof.
  intros Hd Hn. simpl. rewrite bool_decide_eq_false_2 by done.
  unfold randrange.
  destruct (decide (0 < h)) as [Hh|Hh].
  - rewrite (bool_decide_eq_true_2 (0 < h)) by done.
    by rewrite (bool_decide_eq_false_2 (0 < w)) by lia.
  - by rewrite (bool_decide_eq_false_2 (0 < h)) by done.
Qed.

Lemma length_grid_nat (a : MinesweeperAI.t) :
  length (MinesweeperAI.grid a)
  = (Z.to_nat (MinesweeperAI.height a) * Z.to_nat (MinesweeperAI.width a))%nat.
Proof.
  unfold MinesweeperAI.grid.
  rewrite <- (length_seqZ 0 (MinesweeperAI.height a)).
  generalize (seqZ 0 (MinesweeperAI.height a)). intros l.
  induction l as [|i l IH]; [done|]. rewrite bind_cons, length_app, IH.
  simpl. f_equal.
  rewrite <- (length_seqZ 0 (MinesweeperAI.width a)).
  generalize (seqZ 0 (MinesweeperAI.width a)). intros l'.
  induction l' as [|j l' IH']; [done|].
  rewrite bind_cons. simpl. by rewrite IH'.
Qed.

Lemma table_size h w m b :
  table h w m b → (size m ≤ Z.to_nat h * Z.to_nat w)%nat.
Proof.
  intros (_ & _ & Hin & _).
  pose proof (length_grid_nat (MinesweeperAI.init h w)) as Hg. simpl in Hg.
  rewrite <- Hg.
  pose proof (size_list_to_set (C := gset Cell)
                (MinesweeperAI.grid (MinesweeperAI.init h w))
                (NoDup_grid _)) as <-.
  apply subseteq_size. intros c Hc.
  apply elem_of_list_to_set, elem_of_grid. simpl. by apply Hin.
Qed.

Lemma place_never_ends h w n draws m b :
  0 < h → 0 < w → n < 0 ∨ h * w < n → table h w m b →
  place h w n draws m b = OutOfDraws.
Proof.
  intros Hh Hw Hn. revert m b.
  induction draws as [|[r1 r2] draws IH]; intros m b Ht; simpl;
    pose proof (table_size _ _ _ _ Ht) as Hsz;
    (rewrite bool_decide_eq_false_2 by nia); [done|].
  destruct (randrange r1 h) as [i|] eqn:Ei;
    [|unfold randrange in Ei; by rewrite bool_decide_eq_true_2 in Ei].
  destruct (randrange r2 w) as [j|] eqn:Ej;
    [|unfold randrange in Ej; by rewrite bool_decide_eq_true_2 in Ej].
  apply randrange_Some in Ei, Ej.
  pose proof Ht as (Hlen & Hrows & Hin & Hat).
  rewrite (Hat (i, j)) by done.
  destruct (bool_decide _); apply IH; [done|].
  by apply table_store.
Qed.

Lemma place_finishes h w n (l : list Cell) m b :
  NoDup l →
  (∀ c, c ∈ l → (0 ≤ c.1 < h ∧ 0 ≤ c.2 < w) ∧ c ∉ m) →
  table h w m b →
  Z.of_nat (size m) + Z.of_nat (length l) = n →
  ∃ m' b', place h w n (draws_for l) m b = Ok (m', b').
Proof.
  revert m b. induction l as [|[x y] l IH]; intros m b Hnd Hl Ht Hn; simpl.
  - rewrite bool_decide_eq_true_2 by (simpl in Hn; lia). eauto.
  - rewrite bool_decide_eq_false_2 by (simpl in Hn; lia).
    destruct (Hl (x, y)) as [[Hx Hy] Hm]; [left|]. simpl in Hx, Hy.
    unfold randrange. rewrite !bool_decide_eq_true_2 by lia.
    rewrite !Z2Nat.id, !Z.mod_small by lia.
    pose proof Ht as (_ & _ & _ & Hat).
    rewrite (Hat (x, y)) by done.
    rewrite bool_decide_eq_false_2 by done.
    apply NoDup_cons in Hnd as [Hx' Hnd].
    apply IH; [done| |by apply table_store|].
    + intros c Hc. destruct (Hl c) as [Hb Hcm]; [by right|].
      split; [done|]. rewrite elem_of_union, elem_of_singleton.
      intros [->|?]; done.
    + pose proof (size_union ({[ (x, y) ]} : gset Cell) m) as Hu.
      rewrite Hu by set_solver. rewrite size_singleton. simpl in Hn. lia.
Qed.

Lemma init_well_formed h w n draws g :
  init h w n draws = Ok g →
  height g = h ∧ width g = w ∧ mines_found g = ∅ ∧
  well_formed g ∧ Z.of_nat (size (mines g)) = n.
Proof.
  unfold init.
  destruct (place h w n draws ∅ (blank h w)) as [[m b]| |] eqn:E; [|done..].
  intros [= <-]. simpl.
  destruct (place_table _ _ _ _ _ _ _ _ (table_blank h w) E) as [Ht Hn].
  done.
Qed.

Lemma index_table h w m b i :
  table h w m b → ∀ row, index b i = Some row → length row = Z.to_nat w.
Proof.
  intros (_ & Hrows & _) row Hrow. apply index_elem_of in Hrow.
  rewrite Forall_forall in Hrows. by apply Hrows.
Qed.

Lemma board_count_fold g cell (n : Z) (l : list Cell) :
  well_formed g →
  foldl (count_step g cell) (Ok n) l
  = Ok (foldl (Minesweeper.count_step (view g) cell) n l).
Proof.
  intros (_ & _ & _ & Hat). revert n.
  induction l as [|c l IH]; intros n; [done|]. simpl.
  unfold Minesweeper.count_step at 2. simpl.
  case_bool_decide; [apply IH|].
  destruct (bool_decide (0 ≤ c.1 < height g)) eqn:E1;
    destruct (bool_decide (0 ≤ c.2 < width g)) eqn:E2; simpl; try apply IH.
  apply bool_decide_eq_true in E1, E2.
  rewrite (Hat c) by done.
  destruct (bool_decide (c ∈ mines g)); apply IH.
Qed.

Lemma nearby_neighbours (b : Minesweeper.t) cell :
  Minesweeper.nearby_mines b cell
  = Z.of_nat (size (neighbours (Minesweeper.height b) (Minesweeper.width b) cell
                    ∩ Minesweeper.mines b)).
Proof.
  unfold Minesweeper.nearby_mines. rewrite nearby_eq, Z.add_0_l. f_equal.
  set (l := filter _ (MinesweeperAI.window cell)).
  assert (Hnd : NoDup l) by apply NoDup_filter, NoDup_window.
  pose proof (size_list_to_set (C := gset Cell) l Hnd) as <-.
  f_equal. apply set_eq. intros c. unfold l.
  rewrite elem_of_list_to_set, list_elem_of_filter, elem_of_intersection,
    elem_of_neighbours, elem_of_window.
  tauto.
Qed.

End board_facts.

(** X14: what the constructor of [Minesweeper] establishes when it
    returns: the board has the size asked for and exactly [mines] mines,
    all on the board; the list of rows has [height] rows of [width] cells
    and is true exactly at the mines; no mine is found yet; and the game
    counts as won at once exactly when it has no mines. *)
Theorem board_init_spec (h w n : Z) (draws : list (nat * nat))
    (g : MinesweeperBoard.t) :
  MinesweeperBoard.init h w n draws = MinesweeperBoard.Ok g →
  MinesweeperBoard.height g = h ∧ MinesweeperBoard.width g = w ∧
  Z.of_nat (size (MinesweeperBoard.mines g)) = n ∧
  MinesweeperBoard.mines_found g = ∅ ∧
  well_formed g ∧
  (MinesweeperBoard.won g = true ↔ n = 0).
Proof.
  intros H. apply init_well_formed in H as (Hh & Hw & Hf & Hwf & Hn).
  split; [done|]. split; [done|]. split; [done|]. split; [done|].
  split; [done|].
  unfold MinesweeperBoard.won. rewrite bool_decide_eq_true, Hf, <- Hn.
  split.
  - intros <-. by rewrite size_empty.
  - intros H0. symmetry. apply leibniz_equiv, size_empty_inv. lia.
Qed.

Lemma board_init_spec_witness :
  Z.of_nat (size (MinesweeperBoard.mines small_board)) = 1 ∧
  well_formed small_board.
Proof.
  destruct (board_init_spec 2 2 1 [(0%nat, 1%nat)] small_board)
    as (_ & _ & Hn & _ & Hwf & _); [reflexivity|].
  split; [exact Hn|exact Hwf].
Defined.

(** X15: how the constructor of [Minesweeper] can fail.  It never raises
    [IndexError].  With no rows or no columns and a number of mines other
    than 0, the first draw raises [ValueError].  With a negative number of
    mines, or more mines than the board has cells, the loop that places
    the mines never ends, whatever is drawn. *)
Theorem board_init_failures (h w n : Z) (draws : list (nat * nat)) :
  MinesweeperBoard.init h w n draws
  ≠ MinesweeperBoard.Error MinesweeperBoard.IndexError ∧
  (h ≤ 0 ∨ w ≤ 0 → n ≠ 0 → draws ≠ [] →
     MinesweeperBoard.init h w n draws
     = MinesweeperBoard.Error MinesweeperBoard.ValueError) ∧
  (0 < h → 0 < w → n < 0 ∨ h * w < n →
     MinesweeperBoard.init h w n draws = MinesweeperBoard.OutOfDraws).
Proof.
  split; [|split].
  - unfold MinesweeperBoard.init.
    pose proof (place_no_IndexError h w n draws ∅ _ (table_blank h w)) as H.
    destruct (MinesweeperBoard.place _ _ _ _ _ _) as [[m b]|e|]; congruence.
  - intros Hd Hn Hdraws. unfold MinesweeperBoard.init.
    destruct draws as [|[r1 r2] draws]; [done|].
    rewrite place_ValueError; [done|done|]. rewrite size_empty. lia.
  - intros Hh Hw Hn. unfold MinesweeperBoard.init.
    by rewrite (place_never_ends h w n draws ∅ _ Hh Hw Hn (table_blank h w)).
Qed.

Lemma board_init_failures_witness :
  MinesweeperBoard.init 2 2 5 [(0%nat, 0%nat); (1%nat, 1%nat); (0%nat, 1%nat);
                               (1%nat, 0%nat); (3%nat, 2%nat)]
  = MinesweeperBoard.OutOfDraws.
Proof.
  apply (proj2 (proj2 (board_init_failures 2 2 5 _))); lia.
Defined.

(** X16: the constructor of [Minesweeper] can finish on every board with
    room for the mines: for a number of mines from 0 to [height * width]
    some sequence of draws makes it return. *)
Theorem board_init_can_finish (h w n : Z) :
  0 ≤ h → 0 ≤ w → 0 ≤ n ≤ h * w →
  ∃ draws g, MinesweeperBoard.init h w n draws = MinesweeperBoard.Ok g.
Proof.
  intros Hh Hw Hn.
  set (G := MinesweeperAI.grid (MinesweeperAI.init h w)).
  assert (HG : length G = (Z.to_nat h * Z.to_nat w)%nat)
    by apply (length_grid_nat (MinesweeperAI.init h w)).
  destruct (place_finishes h w n (take (Z.to_nat n) G) ∅
              (MinesweeperBoard.blank h w)) as (m & b & E).
  - apply (sublist_NoDup _ G); [apply NoDup_grid|apply sublist_take].
  - intros c Hc. apply subseteq_take in Hc. apply elem_of_grid in Hc.
    simpl in Hc. split; [done|set_solver].
  - apply table_blank.
  - rewrite size_empty, length_take_le by nia. lia.
  - exists (draws_for (take (Z.to_nat n) G)). eexists.
    unfold MinesweeperBoard.init. by rewrite E.
Qed.

Lemma board_init_can_finish_witness :
  ∃ draws g, MinesweeperBoard.init 3 4 12 draws = MinesweeperBoard.Ok g.
Proof. apply (board_init_can_finish 3 4 12); lia. Defined.

(** X17: [is_mine] on a well-formed board.  For a cell on the board it
    tells whether the cell is in [mines].  A negative row or column down to
    [-height] or [-width] is taken from the other end of the board, as
    Python indexes lists; any other row or column raises [IndexError]. *)
Theorem is_mine_spec (g : MinesweeperBoard.t) (cell : Cell) :
  well_formed g →
  (0 ≤ cell.1 < MinesweeperBoard.height g →
   0 ≤ cell.2 < MinesweeperBoard.width g →
     MinesweeperBoard.is_mine g cell
     = MinesweeperBoard.Ok (bool_decide (cell ∈ MinesweeperBoard.mines g))) ∧
  (- MinesweeperBoard.height g ≤ cell.1 < 0 →
     MinesweeperBoard.is_mine g cell
     = MinesweeperBoard.is_mine g (cell.1 + MinesweeperBoard.height g, cell.2)) ∧
  (- MinesweeperBoard.width g ≤ cell.2 < 0 →
     MinesweeperBoard.is_mine g cell
     = MinesweeperBoard.is_mine g (cell.1, cell.2 + MinesweeperBoard.width g)) ∧
  (cell.1 < - MinesweeperBoard.height g ∨ MinesweeperBoard.height g ≤ cell.1 ∨
   cell.2 < - MinesweeperBoard.width g ∨ MinesweeperBoard.width g ≤ cell.2 →
     MinesweeperBoard.is_mine g cell
     = MinesweeperBoard.Error MinesweeperBoard.IndexError).
Proof.
  intros Hwf. pose proof Hwf as (Hlen & Hrows & Hin & Hat).
  unfold MinesweeperBoard.is_mine.
  split; [|split; [|split]].
  - intros H1 H2. by rewrite (Hat cell).
  - intros H1. unfold MinesweeperBoard.cell_at. simpl.
    by rewrite (index_wrap _ (MinesweeperBoard.height g)).
  - intros H2. unfold MinesweeperBoard.cell_at. simpl.
    destruct (MinesweeperBoard.index (MinesweeperBoard.board g) cell.1)
      as [row|] eqn:Erow; simpl; [|done].
    rewrite (index_wrap row (MinesweeperBoard.width g)); [done| |done].
    by eapply index_table.
  - intros H. unfold MinesweeperBoard.cell_at.
    destruct (MinesweeperBoard.index (MinesweeperBoard.board g) cell.1)
      as [row|] eqn:Erow; simpl; [|done].
    destruct (decide (cell.1 < - MinesweeperBoard.height g
                      ∨ MinesweeperBoard.height g ≤ cell.1)) as [H1|H1].
    { by rewrite (index_None _ (MinesweeperBoard.height g)) in Erow. }
    rewrite (index_None row (MinesweeperBoard.width g)); [done| |lia].
    by eapply index_table.
Qed.

Lemma is_mine_spec_witness :
  MinesweeperBoard.is_mine small_board (-1, 1)
  = MinesweeperBoard.is_mine small_board (-1 + 2, 1).
Proof.
  apply (proj1 (proj2 (is_mine_spec small_board (-1, 1)
                         (proj1 (proj2 (proj2 (proj2
                            (init_well_formed 2 2 1 [(0%nat, 1%nat)] small_board
                               eq_refl)))))))).
  by_computation.
Defined.

(** X18: [nearby_mines] on a well-formed board never raises, for any cell,
    on the board or not; it returns the number of mines among the
    neighbours of the cell that are on the board, which is at most 8. *)
Theorem board_nearby_mines_spec (g : MinesweeperBoard.t) (cell : Cell) :
  well_formed g →
  let N := neighbours (MinesweeperBoard.height g) (MinesweeperBoard.width g) cell in
  MinesweeperBoard.nearby_mines g cell
  = MinesweeperBoard.Ok (Z.of_nat (size (N ∩ MinesweeperBoard.mines g))) ∧
  Minesweeper.nearby_mines (view g) cell
  = Z.of_nat (size (N ∩ MinesweeperBoard.mines g)) ∧
  (size (N ∩ MinesweeperBoard.mines g) ≤ 8)%nat.
Proof.
  intros Hwf N. split; [|split].
  - unfold MinesweeperBoard.nearby_mines. rewrite board_count_fold by done.
    f_equal. apply (nearby_neighbours (view g)).
  - apply (nearby_neighbours (view g)).
  - etrans; [|apply (size_neighbours (MinesweeperBoard.height g)
                       (MinesweeperBoard.width g) cell)].
    apply subseteq_size. set_solver.
Qed.

Lemma board_nearby_mines_spec_witness :
  MinesweeperBoard.nearby_mines small_board (0, 0)
  = MinesweeperBoard.Ok
      (Z.of_nat (size (neighbours 2 2 (0, 0) ∩ MinesweeperBoard.mines small_board))).
Proof.
  apply (proj1 (board_nearby_mines_spec small_board (0, 0)
                  (proj1 (proj2 (proj2 (proj2
                     (init_well_formed 2 2 1 [(0%nat, 1%nat)] small_board
                        eq_refl))))))).
Defined.

(** * Played cells and known mines leave the sentences *)

Section unmentioned_facts.
Import MinesweeperAI.
Implicit Types (a : MinesweeperAI.t) (c cell : Cell) (l : list Cell).

Lemma unmentioned_mark_safe a c : unmentioned a → unmentioned (mark_safe c a).
Proof.
  unfold unmentioned, mark_safe; simpl. intros H.
  apply Forall_fmap. eapply Forall_impl; [exact H|].
  intros [i s] Hs. simpl in *. rewrite sentence_mark_safe_cells. set_solver.
Qed.

Lemma unmentioned_mark_mine a c : unmentioned a → unmentioned (mark_mine c a).
Proof.
  unfold unmentioned, mark_mine; simpl. intros H.
  apply Forall_fmap. eapply Forall_impl; [exact H|].
  intros [i s] Hs. simpl in *. rewrite sentence_mark_mine_cells. set_solver.
Qed.

Lemma unmentioned_marks_safe l a :
  unmentioned a → unmentioned (foldl (λ a c, mark_safe c a) a l).
Proof.
  revert a. induction l as [|c l IH]; intros a Ha; [done|].
  simpl. by apply IH, unmentioned_mark_safe.
Qed.

Lemma unmentioned_marks_mine l a :
  unmentioned a → unmentioned (foldl (λ a c, mark_mine c a) a l).
Proof.
  revert a. induction l as [|c l IH]; intros a Ha; [done|].
  simpl. by apply IH, unmentioned_mark_mine.
Qed.

Lemma unmentioned_visit i a : unmentioned a → unmentioned (visit i a).
Proof.
  intros Ha. rewrite visit_eq.
  assert (Hs : unmentioned (visit_safes i a)).
  { unfold visit_safes. repeat case_match; try done.
    by apply unmentioned_marks_safe. }
  unfold visit_mines. repeat case_match; try done.
  by apply unmentioned_marks_mine.
Qed.

Lemma unmentioned_sweep n i a : unmentioned a → unmentioned (sweep n i a).
Proof.
  revert i a. induction n as [|n IH]; intros i a Ha; [done|].
  simpl. by apply IH, unmentioned_visit.
Qed.

Lemma unmentioned_observe cell (count : Z) a :
  unmentioned a → unmentioned (observe cell count a).
Proof.
  intros Ha. unfold observe, append, unmentioned. simpl.
  apply Forall_app. split.
  - apply Forall_fmap. eapply Forall_impl; [exact Ha|].
    intros [i s] Hs. simpl in *. rewrite sentence_mark_safe_cells. set_solver.
  - apply Forall_singleton. simpl. rewrite scan_neighbours. simpl. set_solver.
Qed.

Lemma unmentioned_subsume fuel a a' :
  unmentioned a → subsume fuel a = Done a' → unmentioned a'.
Proof.
  intros Ha Hrun. unfold unmentioned.
  destruct (subsume_frame _ _ _ Hrun) as (-> & _ & -> & _).
  eapply (subsume_closed (λ s, Sentence.cells s ## moves_made a ∪ mines a));
    [|exact Ha|exact Hrun].
  intros p q _ Hq _. unfold difference. simpl. set_solver.
Qed.

Lemma unmentioned_add_knowledge fuel cell (count : Z) a a' :
  unmentioned a → add_knowledge fuel cell count a = Done a' → unmentioned a'.
Proof.
  intros Ha. unfold add_knowledge. apply unmentioned_subsume.
  by apply unmentioned_sweep, unmentioned_observe.
Qed.

Lemma add_knowledge_moves_made fuel cell (count : Z) a a' :
  add_knowledge fuel cell count a = Done a' →
  moves_made a' = {[ cell ]} ∪ moves_made a.
Proof.
  intros H. unfold add_knowledge in H.
  apply subsume_frame in H as (-> & _).
  by destruct (closure_extends (observe cell count a)) as (_ & _ & -> & _).
Qed.

End unmentioned_facts.

(** X19: played cells and known mines leave the sentences for good.  If
    no sentence mentions a played cell or a known mine, the same holds
    after any sequence of [add_knowledge] calls that return, whatever
    counts are reported (for a new agent this is so); and [moves_made] is
    then the cells revealed, added to what it was. *)
Theorem sentences_avoid_played_and_mines (fuel : nat) (obs : list (Cell * Z))
    (a a' : MinesweeperAI.t) :
  unmentioned a →
  play fuel obs a = MinesweeperAI.Done a' →
  unmentioned a' ∧
  MinesweeperAI.moves_made a' = list_to_set obs.*1 ∪ MinesweeperAI.moves_made a.
Proof.
  intros Ha. revert a'.
  induction obs as [|x obs IH] using rev_ind; intros a'.
  - intros [= <-]. split; [done|]. simpl. set_solver.
  - unfold play in *. rewrite foldl_app. simpl.
    destruct (foldl _ _ obs) as [a1| |] eqn:E; simpl; [|done..].
    intros Hrun. destruct (IH a1 eq_refl) as [H1 Hm].
    split; [by eapply unmentioned_add_knowledge|].
    rewrite (add_knowledge_moves_made _ _ _ _ _ Hrun), Hm, fmap_app.
    simpl. set_solver.
Qed.

Lemma sentences_avoid_played_and_mines_witness :
  let a := MinesweeperAI.init 3 2 in
  let a' := returned (play 20 [((0, 0), 1); ((1, 0), 1)] a) a in
  unmentioned a' ∧
  MinesweeperAI.moves_made a'
  = list_to_set [((0, 0), 1); ((1, 0), 1)].*1 ∪ MinesweeperAI.moves_made a.
Proof.
  intros a a'.
  apply (sentences_avoid_played_and_mines 20 [((0, 0), 1); ((1, 0), 1)] a a').
  - constructor.
  - vm_compute. reflexivity.
Defined.

(** * Random moves in a truthful game *)

Section truthful_random_move.
Import MinesweeperAI.

Lemma play_moves_made fuel (obs : list (Cell * Z)) (a a' : MinesweeperAI.t) :
  play fuel obs a = Done a' →
  moves_made a' = list_to_set obs.*1 ∪ moves_made a ∧
  height a' = height a ∧ width a' = width a.
Proof.
  revert a'. induction obs as [|x obs IH] using rev_ind; intros a'.
  - intros [= <-]. split; [|done]. simpl. set_solver.
  - unfold play in *. rewrite foldl_app. simpl.
    destruct (foldl _ _ obs) as [a1| |] eqn:E; simpl; [|done..].
    intros Hrun. destruct (IH a1 eq_refl) as (Hm & Hh & Hw).
    destruct (add_knowledge_dims _ _ _ _ _ Hrun) as [Hh' Hw'].
    split; [|split; congruence].
    rewrite (add_knowledge_moves_made _ _ _ _ _ Hrun), Hm, fmap_app.
    simpl. set_solver.
Qed.

(** The states [make_random_move] meets in a truthful game, on a board
    whose mines are on the grid and with the revealed cells on the grid:
    the played cells and the known mines are disjoint and on the grid. *)
Lemma truthful_play_disjoint (b : Minesweeper.t) (cells : list Cell) :
  (∀ c, c ∈ Minesweeper.mines b →
        0 ≤ c.1 < Minesweeper.height b ∧ 0 ≤ c.2 < Minesweeper.width b) →
  Forall (λ c, (c ∉ Minesweeper.mines b) ∧
               0 ≤ c.1 < Minesweeper.height b ∧ 0 ≤ c.2 < Minesweeper.width b)
         cells →
  ∃ (fuel0 : nat) a,
    (∀ fuel, (fuel0 ≤ fuel)%nat →
       play fuel ((λ c, (c, Minesweeper.nearby_mines b c)) <$> cells)
            (init (Minesweeper.height b) (Minesweeper.width b)) = Done a) ∧
    moves_made a ## mines a ∧
    (∀ x, x ∈ moves_made a ∪ mines a → x ∈ grid a).
Proof.
  intros Hb Hcells.
  destruct (truthful_play b cells) as (fuel0 & a & Hs & _ & Hh & Hw & Hrun).
  { eapply Forall_impl; [exact Hcells|]. by intros c [? _]. }
  exists fuel0, a. split; [done|].
  destruct Hs as (Hmines & _ & Hmoves & _).
  split; [set_solver|].
  destruct (play_moves_made _ _ _ _ (Hrun fuel0 (le_n _))) as (Hm & _ & _).
  intros x Hx. apply elem_of_grid. rewrite Hh, Hw.
  apply elem_of_union in Hx as [Hx|Hx].
  - rewrite Hm in Hx. simpl in Hx.
    apply elem_of_union in Hx as [Hx|Hx]; [|set_solver].
    apply elem_of_list_to_set, list_elem_of_fmap in Hx as ([c k] & -> & Hx).
    apply list_elem_of_fmap in Hx as (c' & [= -> ->] & Hx).
    rewrite Forall_forall in Hcells. by destruct (Hcells _ Hx) as [_ ?].
  - by apply Hb, Hmines.
Qed.

End truthful_random_move.
